(** * BlockChain-Copilot: the transaction safety pipeline, embedded in Rocq

    The development follows the repository:
    - [JsString]: the string operations the front end uses
      ([indexOf], [substring]);
    - [StreamParser]: [frontend/lib/stream-parser.ts];
    - [TransactionCard]: [frontend/components/TransactionCard.tsx], the
      client-side life cycle of one unsigned transaction;
    - [RiskAggregator], [CostOptimizer], [ErrorClassifier]: components of
      the pipeline whose code is not among the sources, modelled from the
      specification;
    - [ChatInterface]: sample replies of the assistant;
    - [ParserStates], [CardRuns]: more on the parser and on the handlers of
      the card;
    - [ChatStore], [ChatRoute], [HandleSend]: the zustand store,
      [frontend/app/api/chat/route.ts] and [handleSend] of the chat, a round
      from the input box to the MCP server and back into the store;
    - [NetworkContext], [ShortAddress]: the detection of the network and
      the short forms of addresses;
    - [SimulationGate], [SimulationAdvice]: the result of a simulation, as
      the specification has it, and what the card does with it. *)

From Stdlib Require Import Bool Arith Lia String Ascii DecimalString ZArith List.
Import ListNotations.

(* ================================================================== *)
(** * Strings as the front end uses them *)
(* ================================================================== *)

Module JsString.

(** A JavaScript string is a sequence of code units; every index the parser
    computes counts code units.  The markers are plain ASCII and the parser
    never looks inside the other code units, so a code unit is an [ascii]. *)
Definition str := list ascii.

Definition lit (s : string) : str := list_ascii_of_string s.

(** [hay.startsWith(needle)] *)
Fixpoint startsWith (needle hay : str) : bool :=
  match needle, hay with
  | [], _ => true
  | _ :: _, [] => false
  | a :: needle', b :: hay' => Ascii.eqb a b && startsWith needle' hay'
  end.

(** [hay.indexOf(needle)]: the first index at which [needle] occurs;
    [None] stands for [-1]. *)
Fixpoint indexOf (needle hay : str) : option nat :=
  if startsWith needle hay then Some 0
  else match hay with
       | [] => None
       | _ :: hay' => option_map S (indexOf needle hay')
       end.

(** [s.substring(0, n)] and [s.substring(n)]. *)
Definition substring_to (n : nat) (s : str) : str := firstn n s.
Definition substring_from (n : nat) (s : str) : str := skipn n s.

(** An occurrence of [m] lies across the cut between [u] and [v]: it starts
    inside [u], less than [length m] code units before its end, and ends
    inside [v]. *)
Fixpoint straddles (m u v : str) : bool :=
  match u with
  | [] => false
  | _ :: u' =>
      ((length u <? length m) && startsWith m (u ++ v)) || straddles m u' v
  end.

(** [m] has no border: no proper non-empty suffix of [m] is a prefix of [m]. *)
Definition unbordered (m : str) : bool :=
  forallb (fun d => negb (startsWith (skipn d m) m)) (seq 1 (length m - 1)).

(* ------------------------------------------------------------------ *)
(** ** Facts *)

Lemma startsWith_app (m s : str) : startsWith m (m ++ s) = true.
Proof.
  induction m as [|a m IH]; simpl; [reflexivity|].
  now rewrite Ascii.eqb_refl, IH.
Qed.

Lemma startsWith_length (m s : str) :
  startsWith m s = true -> length m <= length s.
Proof.
  revert s; induction m as [|a m IH]; intros [|b s]; simpl; try lia; try discriminate.
  intros H; apply andb_true_iff in H as [_ H]. apply IH in H. lia.
Qed.

Lemma startsWith_split (m s : str) :
  startsWith m s = true -> s = m ++ skipn (length m) s.
Proof.
  revert s; induction m as [|a m IH]; intros [|b s]; simpl; try discriminate; try reflexivity.
  intros H; apply andb_true_iff in H as [Hab H].
  apply Ascii.eqb_eq in Hab; subst b. f_equal. now apply IH.
Qed.

Lemma startsWith_app_l (m s t : str) :
  startsWith m s = true -> startsWith m (s ++ t) = true.
Proof.
  intros H. rewrite (startsWith_split _ _ H), <- app_assoc. apply startsWith_app.
Qed.

Lemma startsWith_app_long (m s t : str) :
  length m <= length s -> startsWith m (s ++ t) = startsWith m s.
Proof.
  revert s; induction m as [|a m IH]; intros [|b s]; simpl; intros Hl; try reflexivity; try lia.
  rewrite IH by lia. reflexivity.
Qed.

Lemma indexOf_bound (m s : str) (i : nat) :
  indexOf m s = Some i -> i + length m <= length s.
Proof.
  revert i; induction s as [|b s IH]; intros i; simpl.
  - destruct (startsWith m []) eqn:E; [|discriminate].
    intros [= <-]. apply startsWith_length in E. simpl in *. lia.
  - destruct (startsWith m (b :: s)) eqn:E.
    + intros [= <-]. apply startsWith_length in E. simpl in *. lia.
    + destruct (indexOf m s) as [j|]; simpl; [|discriminate].
      intros [= <-]. specialize (IH j eq_refl). lia.
Qed.

(** An occurrence found in [b] is still the first one after more input
    arrives. *)
Lemma indexOf_app_found (m b c : str) (i : nat) :
  indexOf m b = Some i -> indexOf m (b ++ c) = Some i.
Proof.
  revert i; induction b as [|x b IH]; intros i.
  - simpl. destruct (startsWith m []) eqn:E; [|discriminate].
    intros [= <-]. destruct m; [|discriminate].
    destruct c; reflexivity.
  - intros H. pose proof (indexOf_bound _ _ _ H) as Hb. simpl in H, Hb.
    change ((x :: b) ++ c) with (x :: b ++ c). simpl.
    destruct (startsWith m (x :: b)) eqn:E.
    + injection H as <-.
      change (x :: b ++ c) with ((x :: b) ++ c).
      now rewrite (startsWith_app_l _ _ c E).
    + destruct (indexOf m b) as [j|] eqn:Ej; simpl in H; [|discriminate].
      injection H as <-.
      change (x :: b ++ c) with ((x :: b) ++ c).
      rewrite startsWith_app_long by (simpl; lia).
      rewrite E. now rewrite (IH j eq_refl).
Qed.

(** With no occurrence inside [b] and none across the cut, the first
    occurrence in [b ++ c] is the first one of [c]. *)
Lemma indexOf_app_none (m b c : str) :
  indexOf m b = None -> straddles m b c = false ->
  indexOf m (b ++ c) = option_map (Nat.add (length b)) (indexOf m c).
Proof.
  induction b as [|x b IH]; intros Hn Hs.
  - simpl. now destruct (indexOf m c).
  - simpl in Hn, Hs.
    destruct (startsWith m (x :: b)) eqn:E; [discriminate|].
    destruct (indexOf m b) as [j|] eqn:Ej; [discriminate|].
    apply orb_false_iff in Hs as [Hs1 Hs2].
    specialize (IH eq_refl Hs2).
    change ((x :: b) ++ c) with (x :: b ++ c). simpl indexOf.
    assert (Hsw : startsWith m (x :: b ++ c) = false).
    { apply andb_false_iff in Hs1 as [Hl|Hl]; [|exact Hl].
      apply Nat.ltb_ge in Hl.
      change (x :: b ++ c) with ((x :: b) ++ c).
      rewrite startsWith_app_long; [exact E | simpl; simpl in Hl; lia]. }
    rewrite Hsw, IH. destruct (indexOf m c); reflexivity.
Qed.

Lemma straddles_suffix (m u1 u2 v : str) :
  straddles m (u1 ++ u2) v = false -> straddles m u2 v = false.
Proof.
  induction u1 as [|x u1 IH]; simpl; [auto|].
  intros H. apply orb_false_iff in H as [_ H]. auto.
Qed.

Lemma straddles_skipn (m u v : str) (k : nat) :
  straddles m u v = false -> straddles m (skipn k u) v = false.
Proof.
  intros H. rewrite <- (firstn_skipn k u) in H. eapply straddles_suffix; eauto.
Qed.

Lemma straddles_nil_r (m u : str) : straddles m u [] = false.
Proof.
  induction u as [|x u IH]; simpl; [reflexivity|].
  rewrite IH, orb_false_r, app_nil_r.
  destruct (S (length u) <? length m) eqn:E; [|reflexivity]. simpl.
  apply Nat.ltb_lt in E.
  destruct (startsWith m (x :: u)) eqn:F; [|reflexivity].
  apply startsWith_length in F. simpl in F. lia.
Qed.

Lemma startsWith_skipn (m u w : str) :
  startsWith m (u ++ w) = true -> length u <= length m ->
  startsWith (skipn (length u) m) w = true.
Proof.
  revert m; induction u as [|x u IH]; intros m H Hl; [exact H|].
  destruct m as [|a m]; simpl in Hl; [lia|].
  simpl in H. apply andb_true_iff in H as [_ H].
  simpl. apply IH; [exact H | lia].
Qed.

(** An unbordered marker cannot lie across the cut in front of one of its own
    occurrences. *)
Lemma unbordered_no_straddle (m u rest : str) :
  unbordered m = true -> straddles m u (m ++ rest) = false.
Proof.
  intros Hu. induction u as [|x u IH]; simpl; [reflexivity|].
  rewrite IH, orb_false_r.
  destruct (S (length u) <? length m) eqn:E; [|reflexivity]. simpl.
  apply Nat.ltb_lt in E.
  destruct (startsWith m (x :: u ++ m ++ rest)) eqn:F; [|reflexivity].
  exfalso.
  unfold unbordered in Hu. rewrite forallb_forall in Hu.
  assert (Hin : In (S (length u)) (seq 1 (length m - 1))) by (apply in_seq; lia).
  apply Hu in Hin. apply negb_true_iff in Hin.
  change (x :: u ++ m ++ rest) with ((x :: u) ++ m ++ rest) in F.
  apply startsWith_skipn in F; [|simpl; lia].
  simpl length in F.
  rewrite startsWith_app_long in F by (rewrite length_skipn; lia).
  congruence.
Qed.

Lemma indexOf_at_marker (m pre rest : str) :
  unbordered m = true -> indexOf m pre = None ->
  indexOf m (pre ++ m ++ rest) = Some (length pre).
Proof.
  intros Hu Hn.
  rewrite indexOf_app_none; auto using unbordered_no_straddle.
  assert (H0 : indexOf m (m ++ rest) = Some 0).
  { destruct m; simpl.
    - destruct rest; reflexivity.
    - rewrite Ascii.eqb_refl, startsWith_app. reflexivity. }
  rewrite H0. simpl. f_equal. lia.
Qed.

End JsString.

(* ================================================================== *)
(** * frontend/lib/stream-parser.ts *)
(* ================================================================== *)

Module StreamParser.
Import JsString.

Definition START_MARKER : str := lit "<<<JSON".
Definition END_MARKER : str := lit "JSON>>>".

(** No occurrence of either marker lies across the cut between [u] and [v]. *)
Definition clean_cut (u v : str) : bool :=
  negb (straddles START_MARKER u v) && negb (straddles END_MARKER u v).

(** No occurrence of a marker in [pre ++ concat chunks] has a chunk boundary
    strictly inside it; [pre] is the input that came before [chunks]. *)
Fixpoint clean_cuts (pre : str) (chunks : list str) : bool :=
  match chunks with
  | [] => true
  | c :: rest => clean_cut (pre ++ c) (concat rest) && clean_cuts (pre ++ c) rest
  end.

Section Parser.

(** [JSON.parse] is the language's own; [None] is its [SyntaxError], which
    the parser catches.  [J] is the type of the values it returns. *)
Variable J : Type.
Variable JSON_parse : str -> option J.

(** [ParsedChunk]: [{type: 'text', content}] or
    [{type: 'transaction', content: '', transaction}]. *)
Inductive ParsedChunk : Type :=
| text (content : str)
| transaction (tx : J).

(** The three private fields of the class. *)
Record parser : Type := mk {
  buffer : str;
  inJsonBlock : bool;
  jsonBuffer : str
}.

(** [reset()], which is also the state of a new parser. *)
Definition reset : parser := mk [] false [].

(** The [while (this.buffer.length > 0)] loop of [parse].  Every round that
    does not leave the loop skips a marker, so [fuel] rounds are enough for a
    buffer of [fuel] code units ([loop_total]). *)
Fixpoint loop (fuel : nat) (p : parser) : option (list ParsedChunk * parser) :=
  if 0 <? length (buffer p) then
    match fuel with
    | 0 => None
    | S fuel' =>
        if negb (inJsonBlock p) then
          match indexOf START_MARKER (buffer p) with
          | None =>
              Some ([text (buffer p)], mk [] (inJsonBlock p) (jsonBuffer p))
          | Some startIdx =>
              let before :=
                if 0 <? startIdx
                then [text (substring_to startIdx (buffer p))] else [] in
              match loop fuel' (mk (substring_from (startIdx + 7) (buffer p)) true []) with
              | Some (results, p') => Some (before ++ results, p')
              | None => None
              end
          end
        else
          match indexOf END_MARKER (buffer p) with
          | None =>
              Some ([], mk [] (inJsonBlock p) (jsonBuffer p ++ buffer p))
          | Some endIdx =>
              let jsonBuffer' := jsonBuffer p ++ substring_to endIdx (buffer p) in
              let item :=
                match JSON_parse jsonBuffer' with
                | Some tx => transaction tx
                | None => text jsonBuffer'
                end in
              match loop fuel' (mk (substring_from (endIdx + 7) (buffer p)) false []) with
              | Some (results, p') => Some (item :: results, p')
              | None => None
              end
          end
    end
  else Some ([], p).

(** [parse(chunk)]: [this.buffer += chunk], then the loop. *)
Definition parse (p : parser) (chunk : str) : option (list ParsedChunk * parser) :=
  let p1 := mk (buffer p ++ chunk) (inJsonBlock p) (jsonBuffer p) in
  loop (length (buffer p1)) p1.

(** The chunks of a stream, parsed in order by the same parser, as
    [ChatInterface] does after [reset()]. *)
Fixpoint parse_chunks (p : parser) (chunks : list str)
  : option (list ParsedChunk * parser) :=
  match chunks with
  | [] => Some ([], p)
  | c :: rest =>
      match parse p c with
      | Some (r1, p1) =>
          match parse_chunks p1 rest with
          | Some (r2, p2) => Some (r1 ++ r2, p2)
          | None => None
          end
      | None => None
      end
  end.

(** Items with neighbouring text items merged: what a reader of the stream
    sees when text is appended as it arrives. *)
Fixpoint norm (l : list ParsedChunk) : list ParsedChunk :=
  match l with
  | [] => []
  | transaction tx :: r => transaction tx :: norm r
  | text a :: r =>
      match norm r with
      | text b :: r' => text (a ++ b) :: r'
      | r0 => text a :: r0
      end
  end.

(** What a reader keeps of the items: all the text, in order, and all the
    transactions, in order. *)
Fixpoint all_text (l : list ParsedChunk) : str :=
  match l with
  | [] => []
  | text content :: r => content ++ all_text r
  | transaction _ :: r => all_text r
  end.

Fixpoint all_transactions (l : list ParsedChunk) : list J :=
  match l with
  | [] => []
  | text _ :: r => all_transactions r
  | transaction tx :: r => tx :: all_transactions r
  end.

(** The text item pushed in front of a start marker, when there is text. *)
Definition text_before (s : str) : list ParsedChunk :=
  if 0 <? length s then [text s] else [].

(** The total reading of [loop]: its result with enough fuel. *)
Definition exec (p : parser) : list ParsedChunk * parser :=
  match loop (length (buffer p)) p with
  | Some r => r
  | None => ([], p)
  end.

Definition feed (p : parser) (chunk : str) : list ParsedChunk * parser :=
  exec (mk (buffer p ++ chunk) (inJsonBlock p) (jsonBuffer p)).

Fixpoint feed_all (p : parser) (chunks : list str) : list ParsedChunk * parser :=
  match chunks with
  | [] => ([], p)
  | c :: rest =>
      let r1 := feed p c in
      let r2 := feed_all (snd r1) rest in
      (fst r1 ++ fst r2, snd r2)
  end.

(* ------------------------------------------------------------------ *)
(** ** Termination of the loop *)

Lemma marker_lengths : length START_MARKER = 7 /\ length END_MARKER = 7.
Proof. split; reflexivity. Qed.

Lemma markers_unbordered :
  unbordered START_MARKER = true /\ unbordered END_MARKER = true.
Proof. split; reflexivity. Qed.

Lemma loop_total (fuel : nat) :
  forall p, length (buffer p) <= fuel -> exists r, loop fuel p = Some r.
Proof.
  induction fuel as [|fuel IH]; intros [b inJ jb] Hl; simpl in *.
  - destruct b; simpl in *; [eauto | lia].
  - destruct (0 <? length b) eqn:Hb; [|eauto].
    destruct inJ; simpl.
    + destruct (indexOf END_MARKER b) as [i|] eqn:Hi; [|eauto].
      destruct (IH (mk (substring_from (i + 7) b) false [])) as [[rs p'] Hr].
      { simpl. unfold substring_from. rewrite length_skipn.
        apply Nat.ltb_lt in Hb. lia. }
      rewrite Hr. eauto.
    + destruct (indexOf START_MARKER b) as [i|] eqn:Hi; [|eauto].
      destruct (IH (mk (substring_from (i + 7) b) true [])) as [[rs p'] Hr].
      { simpl. unfold substring_from. rewrite length_skipn.
        apply Nat.ltb_lt in Hb. lia. }
      rewrite Hr. eauto.
Qed.

Lemma loop_fuel (f1 : nat) :
  forall f2 p, length (buffer p) <= f1 -> length (buffer p) <= f2 ->
  loop f1 p = loop f2 p.
Proof.
  induction f1 as [|f1 IH]; intros f2 [b inJ jb] H1 H2; simpl in H1, H2.
  - destruct b; simpl in *; [|lia]. destruct f2; reflexivity.
  - destruct f2 as [|f2].
    + destruct b; simpl in *; [reflexivity | lia].
    + simpl. destruct (0 <? length b) eqn:Hb; [|reflexivity].
      apply Nat.ltb_lt in Hb.
      destruct inJ; simpl.
      * destruct (indexOf END_MARKER b) as [i|]; [|reflexivity].
        rewrite (IH f2); [reflexivity| |];
          simpl; unfold substring_from; rewrite length_skipn; lia.
      * destruct (indexOf START_MARKER b) as [i|]; [|reflexivity].
        rewrite (IH f2); [reflexivity| |];
          simpl; unfold substring_from; rewrite length_skipn; lia.
Qed.

Lemma loop_exec (fuel : nat) (p : parser) :
  length (buffer p) <= fuel -> loop fuel p = Some (exec p).
Proof.
  intros Hl. unfold exec.
  rewrite (loop_fuel fuel (length (buffer p))) by lia.
  destruct (loop_total (length (buffer p)) p) as [r Hr]; [lia|].
  now rewrite Hr.
Qed.

Lemma parse_feed (p : parser) (chunk : str) :
  parse p chunk = Some (feed p chunk).
Proof. unfold parse, feed. apply loop_exec. simpl. lia. Qed.

Lemma parse_chunks_feed_all (chunks : list str) :
  forall p, parse_chunks p chunks = Some (feed_all p chunks).
Proof.
  induction chunks as [|c rest IH]; intros p; simpl; [reflexivity|].
  rewrite parse_feed. destruct (feed p c) as [r1 p1]. simpl.
  rewrite IH. destruct (feed_all p1 rest) as [r2 p2]. reflexivity.
Qed.

(* ------------------------------------------------------------------ *)
(** ** One round of the loop, as equations on [exec] *)

(** Arithmetic on what is left of a buffer behind a marker. *)
Ltac marker_bound H :=
  apply indexOf_bound in H;
  change (length START_MARKER) with 7 in H;
  change (length END_MARKER) with 7 in H.

Ltac skip_len :=
  cbn [buffer]; rewrite ?length_skipn; cbn [length] in *; lia.

(** The item pushed when a block is closed. *)
Definition json_item (content : str) : ParsedChunk :=
  match JSON_parse content with
  | Some tx => transaction tx
  | None => text content
  end.

Lemma exec_nil (inJ : bool) (jb : str) : exec (mk [] inJ jb) = ([], mk [] inJ jb).
Proof. reflexivity. Qed.

Lemma exec_text_none (b jb : str) :
  indexOf START_MARKER b = None ->
  exec (mk b false jb) = (text_before b, mk [] false jb).
Proof.
  intros Hi. destruct b as [|x b]; [reflexivity|].
  unfold exec. cbn [buffer length loop Nat.ltb Nat.leb inJsonBlock negb jsonBuffer].
  now rewrite Hi.
Qed.

Lemma exec_text_some (b jb : str) (i : nat) :
  indexOf START_MARKER b = Some i ->
  exec (mk b false jb) =
  (text_before (firstn i b) ++ fst (exec (mk (skipn (i + 7) b) true [])),
   snd (exec (mk (skipn (i + 7) b) true []))).
Proof.
  intros Hi. pose proof Hi as Hb. marker_bound Hb.
  destruct b as [|x b]; [cbn [length] in Hb; lia|].
  unfold exec at 1. cbn [buffer length loop Nat.ltb Nat.leb inJsonBlock negb jsonBuffer].
  rewrite Hi. unfold substring_from, substring_to.
  rewrite loop_exec by skip_len.
  destruct (exec _) as [rs p']. cbn [fst snd].
  unfold text_before. rewrite length_firstn.
  replace (Nat.min i (length (x :: b))) with i by lia.
  reflexivity.
Qed.

Lemma exec_json_none (b jb : str) :
  indexOf END_MARKER b = None ->
  exec (mk b true jb) = ([], mk [] true (jb ++ b)).
Proof.
  intros Hi. destruct b as [|x b]; [now rewrite exec_nil, app_nil_r|].
  unfold exec. cbn [buffer length loop Nat.ltb Nat.leb inJsonBlock negb jsonBuffer].
  now rewrite Hi.
Qed.

Lemma exec_json_some (b jb : str) (i : nat) :
  indexOf END_MARKER b = Some i ->
  exec (mk b true jb) =
  (json_item (jb ++ firstn i b) :: fst (exec (mk (skipn (i + 7) b) false [])),
   snd (exec (mk (skipn (i + 7) b) false []))).
Proof.
  intros Hi. pose proof Hi as Hb. marker_bound Hb.
  destruct b as [|x b]; [cbn [length] in Hb; lia|].
  unfold exec at 1. cbn [buffer length loop Nat.ltb Nat.leb inJsonBlock negb jsonBuffer].
  rewrite Hi. unfold substring_from, substring_to.
  rewrite loop_exec by skip_len.
  destruct (exec _) as [rs p']. reflexivity.
Qed.

(** [parse] always returns with an empty buffer. *)
Lemma exec_buffer (n : nat) :
  forall b inJ jb, length b <= n -> buffer (snd (exec (mk b inJ jb))) = [].
Proof.
  induction n as [|n IH]; intros b inJ jb Hl.
  - destruct b; simpl in Hl; [reflexivity | lia].
  - destruct inJ.
    + destruct (indexOf END_MARKER b) as [i|] eqn:Hi.
      * rewrite (exec_json_some _ jb _ Hi). cbn [snd].
        marker_bound Hi. apply IH. skip_len.
      * now rewrite (exec_json_none _ jb Hi).
    + destruct (indexOf START_MARKER b) as [i|] eqn:Hi.
      * rewrite (exec_text_some _ jb _ Hi). cbn [snd].
        marker_bound Hi. apply IH. skip_len.
      * now rewrite (exec_text_none _ jb Hi).
Qed.

Lemma feed_buffer (p : parser) (chunk : str) : buffer (snd (feed p chunk)) = [].
Proof. unfold feed. eapply exec_buffer. reflexivity. Qed.

(* ------------------------------------------------------------------ *)
(** ** Merging neighbouring text items *)

Lemma norm_cons (x : ParsedChunk) (r r' : list ParsedChunk) :
  norm r = norm r' -> norm (x :: r) = norm (x :: r').
Proof. intros H. destruct x; simpl; now rewrite H. Qed.

Lemma norm_app_r (xs ys ys' : list ParsedChunk) :
  norm ys = norm ys' -> norm (xs ++ ys) = norm (xs ++ ys').
Proof. intros H. induction xs as [|x xs IH]; simpl app; auto using norm_cons. Qed.

Lemma norm_text_merge (a b : str) (r : list ParsedChunk) :
  norm (text a :: text b :: r) = norm (text (a ++ b) :: r).
Proof.
  simpl. destruct (norm r) as [|[c|tx] r']; try reflexivity.
  now rewrite app_assoc.
Qed.

Lemma all_text_norm (l : list ParsedChunk) :
  all_text (norm l) = all_text l.
Proof.
  induction l as [|[a|tx] l IH]; cbn [norm all_text]; [reflexivity| |exact IH].
  rewrite <- IH. destruct (norm l) as [|[b|tx] r']; cbn [all_text];
    [reflexivity | now rewrite app_assoc | reflexivity].
Qed.

Lemma all_transactions_norm (l : list ParsedChunk) :
  all_transactions (norm l) = all_transactions l.
Proof.
  induction l as [|[a|tx] l IH]; cbn [norm all_transactions];
    [reflexivity | | now rewrite IH].
  rewrite <- IH. destruct (norm l) as [|[b|tx] r']; reflexivity.
Qed.

Lemma norm_text_before (a b : str) (r : list ParsedChunk) :
  0 < length a ->
  norm (text a :: text_before b ++ r) = norm (text (a ++ b) :: r).
Proof.
  intros Ha. unfold text_before. destruct b as [|y b]; simpl app.
  - now rewrite app_nil_r.
  - change (0 <? length (y :: b)) with true. cbv iota. simpl app.
    apply norm_text_merge.
Qed.

Lemma norm_text_before_app (a b : str) (r : list ParsedChunk) :
  norm (text_before (a ++ b) ++ r) = norm (text_before a ++ text_before b ++ r).
Proof.
  destruct a as [|x a]; [reflexivity|].
  change (text_before ((x :: a) ++ b)) with [text ((x :: a) ++ b)].
  change (text_before (x :: a)) with [text (x :: a)].
  cbn [app]. symmetry. apply (norm_text_before (x :: a) b r). cbn [length]. lia.
Qed.

(* ------------------------------------------------------------------ *)
(** ** Input arriving in two pieces *)

Lemma clean_cut_iff (u v : str) :
  clean_cut u v = true <->
  straddles START_MARKER u v = false /\ straddles END_MARKER u v = false.
Proof.
  unfold clean_cut. rewrite andb_true_iff, !negb_true_iff. reflexivity.
Qed.

Lemma clean_cut_skipn (u v : str) (k : nat) :
  clean_cut u v = true -> clean_cut (skipn k u) v = true.
Proof.
  rewrite !clean_cut_iff. intros [H1 H2]. split; now apply straddles_skipn.
Qed.

Lemma clean_cut_suffix (u1 u2 v : str) :
  clean_cut (u1 ++ u2) v = true -> clean_cut u2 v = true.
Proof.
  rewrite !clean_cut_iff. intros [H1 H2]. split; eapply straddles_suffix; eauto.
Qed.

Lemma firstn_app_short (i : nat) (b c : str) :
  i <= length b -> firstn i (b ++ c) = firstn i b.
Proof.
  intros H. rewrite firstn_app. replace (i - length b) with 0 by lia.
  cbn [firstn]. apply app_nil_r.
Qed.

Lemma skipn_app_short (i : nat) (b c : str) :
  i <= length b -> skipn i (b ++ c) = skipn i b ++ c.
Proof.
  intros H. rewrite skipn_app. now replace (i - length b) with 0 by lia.
Qed.

Lemma skipn_app_long (j : nat) (b c : str) :
  skipn (length b + j) (b ++ c) = skipn j c.
Proof.
  rewrite skipn_app, skipn_all2 by lia.
  now replace (length b + j - length b) with j by lia.
Qed.

Lemma skipn_behind (pre m rest : str) :
  skipn (length pre + length m) (pre ++ m ++ rest) = rest.
Proof.
  rewrite skipn_app_long, skipn_app_short by lia.
  now rewrite skipn_all.
Qed.

(** When no marker lies across the cut between [b] and [c], the parser that
    has consumed [b] and is then given [c] ends in the state it reaches on
    [b ++ c] at once, with the same items up to where text is cut. *)
Lemma exec_split (n : nat) :
  forall b c inJ jb, length b <= n -> clean_cut b c = true ->
  let r1 := exec (mk b inJ jb) in
  let r2 := exec (mk c (inJsonBlock (snd r1)) (jsonBuffer (snd r1))) in
  let r := exec (mk (b ++ c) inJ jb) in
  snd r = snd r2 /\ norm (fst r) = norm (fst r1 ++ fst r2).
Proof.
  induction n as [|n IH]; intros b c inJ jb Hl Hc; cbv zeta.
  { destruct b; cbn [length] in Hl; [|lia]. rewrite exec_nil. auto. }
  pose proof Hc as Hc'. apply clean_cut_iff in Hc' as [HcS HcE].
  destruct inJ.
  - (* inside a block *)
    destruct (indexOf END_MARKER b) as [i|] eqn:Hi.
    + rewrite (exec_json_some b jb i Hi).
      rewrite (exec_json_some (b ++ c) jb i (indexOf_app_found _ _ c _ Hi)).
      cbn [fst snd]. marker_bound Hi.
      rewrite firstn_app_short, skipn_app_short by lia.
      destruct (IH (skipn (i + 7) b) c false []) as [Hs Hn];
        [skip_len | now apply clean_cut_skipn |].
      split; [exact Hs|]. cbn [app]. now apply norm_cons.
    + rewrite (exec_json_none b jb Hi). cbn [fst snd inJsonBlock jsonBuffer app].
      pose proof (indexOf_app_none _ _ c Hi HcE) as Hbc.
      destruct (indexOf END_MARKER c) as [j|] eqn:Hj; cbn [option_map] in Hbc.
      * rewrite (exec_json_some (b ++ c) jb _ Hbc).
        rewrite (exec_json_some c (jb ++ b) j Hj). cbn [fst snd].
        rewrite firstn_app_2, <- Nat.add_assoc, skipn_app_long, app_assoc.
        auto.
      * rewrite (exec_json_none (b ++ c) jb Hbc).
        rewrite (exec_json_none c (jb ++ b) Hj). rewrite app_assoc. auto.
  - (* outside *)
    destruct (indexOf START_MARKER b) as [i|] eqn:Hi.
    + rewrite (exec_text_some b jb i Hi).
      rewrite (exec_text_some (b ++ c) jb i (indexOf_app_found _ _ c _ Hi)).
      cbn [fst snd]. marker_bound Hi.
      rewrite firstn_app_short, skipn_app_short by lia.
      destruct (IH (skipn (i + 7) b) c true []) as [Hs Hn];
        [skip_len | now apply clean_cut_skipn |].
      split; [exact Hs|]. rewrite <- app_assoc. now apply norm_app_r.
    + rewrite (exec_text_none b jb Hi). cbn [fst snd inJsonBlock jsonBuffer].
      pose proof (indexOf_app_none _ _ c Hi HcS) as Hbc.
      destruct (indexOf START_MARKER c) as [j|] eqn:Hj; cbn [option_map] in Hbc.
      * rewrite (exec_text_some (b ++ c) jb _ Hbc).
        rewrite (exec_text_some c jb j Hj). cbn [fst snd].
        rewrite firstn_app_2, <- Nat.add_assoc, skipn_app_long.
        split; [reflexivity|]. apply norm_text_before_app.
      * rewrite (exec_text_none (b ++ c) jb Hbc).
        rewrite (exec_text_none c jb Hj). cbn [fst snd].
        split; [reflexivity|].
        rewrite <- (app_nil_r (text_before (b ++ c))).
        rewrite <- (app_nil_r (text_before c)).
        apply norm_text_before_app.
Qed.

Lemma feed_split (p : parser) (b c : str) :
  buffer p = [] -> clean_cut b c = true ->
  snd (feed p (b ++ c)) = snd (feed (snd (feed p b)) c) /\
  norm (fst (feed p (b ++ c))) =
  norm (fst (feed p b) ++ fst (feed (snd (feed p b)) c)).
Proof.
  intros Hp Hc. destruct p as [pb inJ jb]. cbn [buffer] in Hp. subst pb.
  unfold feed at 1 3 4 5 7. cbn [buffer inJsonBlock jsonBuffer app].
  unfold feed. rewrite (exec_buffer (length b) b inJ jb (le_n _)). cbn [app].
  exact (exec_split (length b) b c inJ jb (le_n _) Hc).
Qed.

Lemma feed_all_clean (chunks : list str) :
  forall pre p, buffer p = [] -> clean_cuts pre chunks = true ->
  snd (feed_all p chunks) = snd (feed p (concat chunks)) /\
  norm (fst (feed_all p chunks)) = norm (fst (feed p (concat chunks))).
Proof.
  induction chunks as [|c rest IH]; intros pre p Hp Hc.
  - cbn [feed_all concat fst snd]. destruct p as [pb inJ jb].
    cbn [buffer] in Hp. subst pb. unfold feed. cbn [buffer app].
    rewrite exec_nil. auto.
  - cbn [clean_cuts] in Hc. apply andb_true_iff in Hc as [Hc1 Hc2].
    apply clean_cut_suffix in Hc1.
    cbn [feed_all concat fst snd].
    destruct (feed_split p c (concat rest) Hp Hc1) as [Hs Hn].
    destruct (IH (pre ++ c) (snd (feed p c)) (feed_buffer p c) Hc2) as [Hs' Hn'].
    split.
    + now rewrite Hs, Hs'.
    + rewrite Hn. now apply norm_app_r.
Qed.

(** A block is closed by the first end marker behind its start marker; the
    parser then goes on behind that end marker. *)
Lemma exec_block (pre body rest : str) :
  indexOf START_MARKER pre = None ->
  indexOf END_MARKER body = None ->
  exec (mk (pre ++ START_MARKER ++ body ++ END_MARKER ++ rest) false []) =
  (text_before pre ++ json_item body :: fst (exec (mk rest false [])),
   snd (exec (mk rest false []))).
Proof.
  intros Hpre Hbody.
  destruct markers_unbordered as [HuS HuE].
  pose proof (indexOf_at_marker START_MARKER pre (body ++ END_MARKER ++ rest) HuS Hpre) as H1.
  pose proof (indexOf_at_marker END_MARKER body rest HuE Hbody) as H2.
  rewrite (exec_text_some _ [] _ H1). rewrite firstn_app_short, firstn_all by lia.
  rewrite (skipn_behind pre START_MARKER).
  rewrite (exec_json_some _ [] _ H2). rewrite firstn_app_short, firstn_all by lia.
  rewrite (skipn_behind body END_MARKER).
  reflexivity.
Qed.

(** An unparsable block is handed on as text. *)
Lemma exec_invalid_block (pre body rest : str) :
  indexOf START_MARKER pre = None ->
  indexOf END_MARKER body = None ->
  JSON_parse body = None ->
  exec (mk (pre ++ START_MARKER ++ body ++ END_MARKER ++ rest) false []) =
  (text_before pre ++ text body :: fst (exec (mk rest false [])),
   snd (exec (mk rest false []))).
Proof.
  intros Hpre Hbody Hjson. rewrite (exec_block pre body rest Hpre Hbody).
  unfold json_item. now rewrite Hjson.
Qed.

(** One call on a text, a block and nothing behind it. *)
Lemma parse_text_then_block (pre body : str) :
  indexOf START_MARKER pre = None ->
  indexOf END_MARKER body = None ->
  parse reset (pre ++ START_MARKER ++ body ++ END_MARKER)
  = Some (text_before pre ++ [json_item body], reset).
Proof.
  intros Hpre Hbody. rewrite parse_feed. unfold feed.
  cbn [buffer inJsonBlock jsonBuffer reset app].
  rewrite <- (app_nil_r END_MARKER).
  now rewrite (exec_block pre body [] Hpre Hbody).
Qed.

(** One call on a text without a start marker. *)
Lemma parse_plain_text (t : str) :
  indexOf START_MARKER t = None ->
  parse reset t = Some (text_before t, reset).
Proof.
  intros Ht. rewrite parse_feed. unfold feed.
  cbn [buffer inJsonBlock jsonBuffer reset app].
  now rewrite (exec_text_none t [] Ht).
Qed.

End Parser.

Arguments text {J} content.
Arguments transaction {J} tx.
Arguments norm {J} l.
Arguments text_before {J} s.
Arguments all_text {J} l.
Arguments all_transactions {J} l.
Arguments json_item {J} JSON_parse content.
Arguments loop {J} JSON_parse fuel p.
Arguments parse {J} JSON_parse p chunk.
Arguments parse_chunks {J} JSON_parse p chunks.
Arguments exec {J} JSON_parse p.
Arguments feed {J} JSON_parse p chunk.
Arguments feed_all {J} JSON_parse p chunks.

(** A stand-in for [JSON.parse] at the concrete inputs used below: it takes
    the texts that open with a brace and close with one, and hands back the
    text itself.  Each text it is given below is valid JSON exactly when it
    has this shape. *)
Definition sample_JSON_parse (s : str) : option str :=
  if startsWith (lit "{") s && startsWith (lit "}") (rev s) then Some s else None.

(* ------------------------------------------------------------------ *)
(** ** Chunks and the whole input *)

(** X26: when no occurrence of [<<<JSON] or [JSON>>>] in the input has a
    chunk boundary strictly inside it, a parser fresh from [reset()] that is
    given the chunks one after the other returns, all calls together, the
    items it returns for the whole input in one call, up to where runs of
    text are cut into items, and ends in the same state; the chat then shows
    the same text and the same transactions.  The condition is sufficient,
    not necessary: an end marker cut outside a block, say, does no harm. *)
Theorem parse_chunks_clean_cuts (J : Type) (JSON_parse : str -> option J)
    (chunks : list str) :
  clean_cuts [] chunks = true ->
  exists r1 r2 p',
    parse_chunks JSON_parse reset chunks = Some (r1, p') /\
    parse JSON_parse reset (concat chunks) = Some (r2, p') /\
    norm r1 = norm r2 /\
    all_text r1 = all_text r2 /\
    all_transactions r1 = all_transactions r2.
Proof.
  intros Hc.
  destruct (feed_all_clean J JSON_parse chunks [] reset eq_refl Hc) as [Hs Hn].
  exists (fst (feed_all JSON_parse reset chunks)),
         (fst (feed JSON_parse reset (concat chunks))),
         (snd (feed_all JSON_parse reset chunks)).
  rewrite parse_chunks_feed_all, parse_feed.
  split; [|split; [|split; [exact Hn|split]]].
  - now rewrite <- surjective_pairing.
  - rewrite Hs. now rewrite <- surjective_pairing.
  - rewrite <- (all_text_norm J (fst (feed_all _ _ _))), Hn.
    apply all_text_norm.
  - rewrite <- (all_transactions_norm J (fst (feed_all _ _ _))), Hn.
    apply all_transactions_norm.
Qed.

Lemma parse_chunks_clean_cuts_witness :
  clean_cuts [] [lit "Sending: <<<JSON{"; lit "}JSON>>> sign"; lit " it."] = true /\
  exists r1 r2 p',
    parse_chunks sample_JSON_parse reset
      [lit "Sending: <<<JSON{"; lit "}JSON>>> sign"; lit " it."] = Some (r1, p') /\
    parse sample_JSON_parse reset
      (concat [lit "Sending: <<<JSON{"; lit "}JSON>>> sign"; lit " it."]) = Some (r2, p') /\
    norm r1 = norm r2 /\
    all_text r1 = all_text r2 /\
    all_transactions r1 = all_transactions r2.
Proof.
  split; [reflexivity|].
  apply (parse_chunks_clean_cuts str sample_JSON_parse
           [lit "Sending: <<<JSON{"; lit "}JSON>>> sign"; lit " it."]).
  reflexivity.
Defined.

(** C9, evaluated: a start marker cut by a chunk boundary is handed on as
    text, and no transaction item is ever produced for its block, while the
    same input in one chunk gives the transaction item.  Outside a block
    [parse] empties [buffer] at the end of every call, so the first half of
    the marker is gone when the second arrives; inside a block it does carry
    the content on, in [jsonBuffer]. *)
Lemma split_start_marker_lost :
  exists r1 r2 p,
    parse_chunks sample_JSON_parse reset [lit "<<<"; lit "JSON{}JSON>>>"] = Some (r1, p) /\
    parse sample_JSON_parse reset (concat [lit "<<<"; lit "JSON{}JSON>>>"]) = Some (r2, p) /\
    r1 = [text (lit "<<<"); text (lit "JSON{}JSON>>>")] /\
    r2 = [transaction (lit "{}")] /\
    norm r1 <> norm r2.
Proof.
  exists [text (lit "<<<"); text (lit "JSON{}JSON>>>")], [transaction (lit "{}")], reset.
  repeat split; try reflexivity. discriminate.
Qed.

(** An end marker cut by a chunk boundary is not seen either: the block
    stays open and swallows what follows. *)
Example split_end_marker_keeps_block_open :
  parse_chunks sample_JSON_parse reset [lit "<<<JSON{}JSON>"; lit ">> done"]
  = Some ([], mk [] true (lit "{}JSON>>> done")).
Proof. reflexivity. Qed.

(** Text alone is already cut differently: one item per chunk. *)
Example text_items_follow_chunks :
  parse_chunks sample_JSON_parse reset [lit "ab"; lit "cd"]
    = Some ([text (lit "ab"); text (lit "cd")], reset) /\
  parse sample_JSON_parse reset (lit "abcd") = Some ([text (lit "abcd")], reset).
Proof. split; reflexivity. Qed.

(** C10: [parse] returns for every parser state and every chunk; and when the
    text between a start marker and the end marker that follows it is not
    valid JSON, that text comes out as a text item (no transaction item),
    both markers are dropped, and what follows the end marker is parsed as a
    fresh parser would parse it. *)
Theorem parse_total_invalid_json (J : Type) (JSON_parse : str -> option J) :
  (forall p chunk, exists r, parse JSON_parse p chunk = Some r) /\
  (forall pre body rest,
     indexOf START_MARKER pre = None ->
     indexOf END_MARKER body = None ->
     JSON_parse body = None ->
     exists items p',
       parse JSON_parse reset rest = Some (items, p') /\
       parse JSON_parse reset
         (pre ++ START_MARKER ++ body ++ END_MARKER ++ rest)
       = Some (text_before pre ++ text body :: items, p')).
Proof.
  split.
  - intros p chunk. rewrite parse_feed. eauto.
  - intros pre body rest Hpre Hbody Hjson.
    exists (fst (feed JSON_parse reset rest)), (snd (feed JSON_parse reset rest)).
    rewrite !parse_feed. split; [now rewrite <- surjective_pairing|].
    unfold feed. cbn [buffer inJsonBlock jsonBuffer reset app].
    now rewrite (exec_invalid_block J JSON_parse pre body rest Hpre Hbody Hjson).
Qed.

Lemma parse_total_invalid_json_witness :
  indexOf START_MARKER (lit "hi ") = None /\
  indexOf END_MARKER (lit "oops") = None /\
  sample_JSON_parse (lit "oops") = None /\
  exists items p',
    parse sample_JSON_parse reset (lit " there <<<JSON{}JSON>>>!") = Some (items, p') /\
    parse sample_JSON_parse reset
      (lit "hi " ++ START_MARKER ++ lit "oops" ++ END_MARKER ++ lit " there <<<JSON{}JSON>>>!")
    = Some (text_before (lit "hi ") ++ text (lit "oops") :: items, p').
Proof.
  repeat (split; [reflexivity|]).
  apply (proj2 (parse_total_invalid_json str sample_JSON_parse)); reflexivity.
Defined.

Example invalid_block_then_valid_block :
  parse sample_JSON_parse reset (lit "hi <<<JSONoopsJSON>>> there <<<JSON{}JSON>>>!")
  = Some ([text (lit "hi "); text (lit "oops"); text (lit " there ");
           transaction (lit "{}"); text (lit "!")], reset).
Proof. reflexivity. Qed.

End StreamParser.

(* ================================================================== *)
(** * frontend/components/TransactionCard.tsx *)
(* ================================================================== *)

Module TransactionCard.
Local Open Scope string_scope.

(** [TxState] of [types/chat.ts]. *)
Inductive TxState : Type :=
| idle | renting | signing | broadcasting | success | error.

Definition TxState_eqb (a b : TxState) : bool :=
  match a, b with
  | idle, idle | renting, renting | signing, signing
  | broadcasting, broadcasting | success, success | error, error => true
  | _, _ => false
  end.

(** The four [useState] cells of the component.  The cell the source calls
    [error] is [error_text] here, [error] being the state of that name. *)
Record Card : Type := mkCard {
  state : TxState;
  txid : string;
  error_text : string;
  rentEnergy : bool
}.

(** A card as it is mounted: [useState] initial values. *)
Definition initial : Card := mkCard idle "" "" true.

(** [a || b] on strings: the empty string is falsy. *)
Definition or_else (a b : string) : string :=
  if String.eqb a "" then b else a.

(** What is thrown or rejected: an [Error] with its [message]. *)
Inductive Exn : Type := Error (message : string).

Definition message (e : Exn) : string := match e with Error m => m end.

(** The outcome of an awaited call: resolved with a value or rejected. *)
Inductive outcome (A : Type) : Type :=
| Resolved (a : A)
| Rejected (e : Exn).
Arguments Resolved {A} a.
Arguments Rejected {A} e.

(** What the card shows or calls, in order: the card after a setter call,
    or a call of one of the optional callbacks of the props.  React paints a
    subsequence of these cards, the setter calls between two [await]s being
    painted together; no such run of calls holds two [setState]. *)
Inductive Event : Type :=
| Rendered (c : Card)
| OnSuccess (txid : string)
| OnError (msg : string).

(** Handler code: it reads and writes the card, logs events, and returns or
    throws. *)
Definition M (A : Type) : Type := Card -> list Event * Card * outcome A.

Definition ret {A : Type} (a : A) : M A := fun c => ([], c, Resolved a).

Definition bind {A B : Type} (m : M A) (k : A -> M B) : M B :=
  fun c =>
    match m c with
    | (log, c', Resolved a) =>
        match k a c' with
        | (log', c'', r) => ((log ++ log')%list, c'', r)
        end
    | (log, c', Rejected e) => (log, c', Rejected e)
    end.

Definition throw {A : Type} (e : Exn) : M A := fun c => ([], c, Rejected e).

(** [try { m } catch (e) { h e }] *)
Definition try_catch {A : Type} (m : M A) (h : Exn -> M A) : M A :=
  fun c =>
    match m c with
    | (log, c', Resolved a) => (log, c', Resolved a)
    | (log, c', Rejected e) =>
        match h e c' with
        | (log', c'', r) => ((log ++ log')%list, c'', r)
        end
    end.

(** [await p] for a promise whose outcome the environment decides. *)
Definition await {A : Type} (o : outcome A) : M A := fun c => ([], c, o).

Notation "x <- m ;; k" := (bind m (fun x => k))
  (at level 61, m at next level, right associativity).
Notation "m ;; k" := (bind m (fun _ => k))
  (at level 61, right associativity).

Definition setState (s : TxState) : M unit :=
  fun c => let c' := mkCard s (txid c) (error_text c) (rentEnergy c) in
           ([Rendered c'], c', Resolved tt).
Definition setTxid (t : string) : M unit :=
  fun c => let c' := mkCard (state c) t (error_text c) (rentEnergy c) in
           ([Rendered c'], c', Resolved tt).
Definition setError (e : string) : M unit :=
  fun c => let c' := mkCard (state c) (txid c) e (rentEnergy c) in
           ([Rendered c'], c', Resolved tt).
Definition setRentEnergy (b : bool) : M unit :=
  fun c => let c' := mkCard (state c) (txid c) (error_text c) b in
           ([Rendered c'], c', Resolved tt).

(** [cb?.(arg)]: the callback is called when the props carry one, and it
    returns or throws as a function of the caller's may. *)
Definition call_opt (cb : option (string -> outcome unit))
    (e : string -> Event) (arg : string) : M unit :=
  fun c =>
    match cb with
    | Some f => ([e arg], c, f arg)
    | None => ([], c, Resolved tt)
    end.

(** [await new Promise(resolve => setTimeout(resolve, ms))] *)
Definition sleep (ms : nat) : M unit := ret tt.

(* ------------------------------------------------------------------ *)
(** ** The environment of one click *)

(** What the handlers read of [UnsignedTransaction] ([types/chat.ts]):
    [metadata?.recipient], [metadata?.estimated_energy] and
    [raw_data?.contract?.[0]?.type]. *)
Record Metadata : Type := {
  recipient : option string;
  estimated_energy : option N
}.

Record UnsignedTransaction : Type := {
  contract_type : option string;
  metadata : option Metadata
}.

Record SignedTx : Type := { txID : string }.

(** The body posted to [/api/rent-energy]. *)
Record RentRequest : Type := {
  rent_transaction : UnsignedTransaction;
  recipient_address : string;
  rent_network : string;
  rent_estimated_energy : N
}.

(** The body of the rent-energy answer. *)
Record RentalResult : Type := { rental_success : bool; rental_message : string }.

(** The answer of [sendRawTransaction]. *)
Record BroadcastResult : Type := {
  result : bool;
  result_txid : string;
  result_message : string;
  result_code : string
}.

(** The body posted to [/api/analyze-error]. *)
Record AnalyzeRequest : Type := {
  error_message : string;
  error_context : string;
  details_type : option string;
  details_network : string
}.

(** The body of the analyze-error answer. *)
Record Analysis : Type := {
  analysis : string;
  possible_causes : list string;
  suggestions : list string
}.

(** A [fetch] response: [ok] and the outcome of [await response.json()]. *)
Record Response (A : Type) : Type := { ok : bool; json : outcome A }.
Arguments ok {A} r.
Arguments json {A} r.

(** Everything outside the card that one run of a handler meets: the wallet
    hook ([signTransaction], [None] when the hook gives no signer), the
    detected network, the two back-end routes and TronWeb. *)
Record World : Type := {
  signTransaction : option (UnsignedTransaction -> outcome SignedTx);
  network_name : string;
  fetch_rent_energy : RentRequest -> outcome (Response RentalResult);
  import_tronweb : outcome unit;
  sendRawTransaction : SignedTx -> outcome BroadcastResult;
  fetch_analyze_error : AnalyzeRequest -> outcome (Response Analysis)
}.

(** The props of the card: the transaction and two optional callbacks. *)
Record Props : Type := {
  transaction : UnsignedTransaction;
  onSuccess : option (string -> outcome unit);
  onError : option (string -> outcome unit)
}.

(** [ChatMessage], the one place that mounts the card, gives [transaction]
    and neither callback: [<TransactionCard key={idx} transaction={tx} />]. *)
Definition mounted_by_ChatMessage (tx : UnsignedTransaction) : Props :=
  {| transaction := tx; onSuccess := None; onError := None |}.

(** The [onSuccess] callback, when there is one, returns. *)
Definition onSuccess_returns (props : Props) : Prop :=
  forall f t, onSuccess props = Some f -> f t = Resolved tt.

(* ------------------------------------------------------------------ *)
(** ** The handlers *)

Definition newline : string := String (ascii_of_nat 10) EmptyString.

(** [list.map((c, i) => `${i + 1}. ${c}`).join('\n')] *)
Fixpoint numbered_from (i : nat) (l : list string) : list string :=
  match l with
  | [] => []
  | c :: r =>
      (NilEmpty.string_of_uint (Nat.to_uint (i + 1)) ++ ". " ++ c)
        :: numbered_from (S i) r
  end.

Definition numbered (l : list string) : string :=
  String.concat newline (numbered_from 0 l).

(** The template string of the error panel. *)
Definition detailedError (errorMsg : string) (a : Analysis) : string :=
  "❌ **错误**：" ++ errorMsg ++ newline ++ newline ++
  "📊 **分析**：" ++ newline ++ analysis a ++ newline ++ newline ++
  "💡 **可能原因**：" ++ newline ++ numbered (possible_causes a) ++ newline ++ newline ++
  "🔧 **建议**：" ++ newline ++ numbered (suggestions a).

(** [transaction.metadata?.estimated_energy || 28000] *)
Definition energyAmount (tx : UnsignedTransaction) : N :=
  match metadata tx with
  | Some {| estimated_energy := Some e |} => if N.eqb e 0 then 28000%N else e
  | _ => 28000%N
  end.

(** [transaction.metadata?.recipient || ''] *)
Definition recipient_or_empty (tx : UnsignedTransaction) : string :=
  match metadata tx with
  | Some {| recipient := Some r |} => r
  | _ => ""
  end.

(** Step 1 of [handleSignWithEnergy]: the rental and its own [try/catch]. *)
Definition rent_step (tx : UnsignedTransaction) (w : World) : M unit :=
  setState renting ;;
  setError "" ;;
  try_catch
    (response <- await (fetch_rent_energy w
                   {| rent_transaction := tx;
                      recipient_address := recipient_or_empty tx;
                      rent_network := network_name w;
                      rent_estimated_energy := energyAmount tx |}) ;;
     (if negb (ok response)
      then throw (Error "Energy rental request failed")
      else ret tt) ;;
     rentalResult <- await (json response) ;;
     (if rental_success rentalResult
      then setError (rental_message rentalResult)
      else setError (or_else (rental_message rentalResult)
                       "Energy rental failed, proceeding with transaction")) ;;
     sleep 1500)
    (fun rentError =>
       setError "Energy rental failed, proceeding with transaction..." ;;
       sleep 1000).

(** Steps 2 and 3, shared by both signing handlers up to the texts: sign,
    then broadcast. *)
Definition sign_and_broadcast (props : Props) (w : World)
    (sign : UnsignedTransaction -> outcome SignedTx)
    (failure_text : BroadcastResult -> string) : M unit :=
  signedTx <- await (sign (transaction props)) ;;
  setState broadcasting ;;
  await (import_tronweb w) ;;
  r <- await (sendRawTransaction w signedTx) ;;
  if result r then
    let txid := or_else (or_else (result_txid r) (txID signedTx)) "" in
    setTxid txid ;;
    setState success ;;
    call_opt (onSuccess props) OnSuccess txid
  else throw (Error (failure_text r)).

(** The [catch] block of [handleSignWithEnergy]. *)
Definition analysed_failure (props : Props) (w : World) (err : Exn) : M unit :=
  let errorMsg := or_else (message err) "Unknown error" in
  try_catch
    (analysisResponse <- await (fetch_analyze_error w
                           {| error_message := errorMsg;
                              error_context := "broadcast";
                              details_type := contract_type (transaction props);
                              details_network := network_name w |}) ;;
     if ok analysisResponse then
       a <- await (json analysisResponse) ;;
       setError (detailedError errorMsg a)
     else setError errorMsg)
    (fun analysisErr => setError errorMsg) ;;
  setState error ;;
  call_opt (onError props) OnError errorMsg.

(** [handleSignWithEnergy], the handler of the confirm button. *)
Definition handleSignWithEnergy (props : Props) (w : World) : M unit :=
  fun c =>
    match signTransaction w with
    | None => (setError "钱包未连接" ;; setState error) c
    | Some sign =>
        try_catch
          ((if rentEnergy c then rent_step (transaction props) w else ret tt) ;;
           setState signing ;;
           setError "" ;;
           sign_and_broadcast props w sign
             (fun r => or_else (or_else (result_message r) (result_code r))
                         "Transaction failed"))
          (analysed_failure props w) c
    end.

(** [handleSign], which no element of the card is bound to. *)
Definition handleSign (props : Props) (w : World) : M unit :=
  match signTransaction w with
  | None => setError "Wallet not connected" ;; setState error
  | Some sign =>
      try_catch
        (setState signing ;;
         sign_and_broadcast props w sign
           (fun r => or_else (result_message r) "Transaction failed"))
        (fun err =>
           let errorMsg := or_else (message err) "Unknown error" in
           setError errorMsg ;;
           setState error ;;
           call_opt (onError props) OnError errorMsg)
  end.

(** [handleReject], the handler of the reject button. *)
Definition handleReject (props : Props) : M unit :=
  setState error ;;
  setError "Transaction rejected by user" ;;
  call_opt (onError props) OnError "Rejected by user".

(* ------------------------------------------------------------------ *)
(** ** What the card renders *)

(** The parts of the JSX that depend on the four cells; the rows that print
    the transaction are left out. *)
Record View : Type := {
  state_indicator : option TxState;
  rental_checkbox : option bool;
  confirm_button : option bool;
  reject_button : bool;
  loading_text : option string;
  success_panel : option (option string);
  error_panel : option string
}.

Definition render (addr : option string) (c : Card) : View :=
  {| state_indicator :=
       if TxState_eqb (state c) idle then None else Some (state c);
     rental_checkbox :=
       if TxState_eqb (state c) idle then Some (rentEnergy c) else None;
     (* the confirm button, with its [disabled={!address}] *)
     confirm_button :=
       if TxState_eqb (state c) idle
       then Some (match addr with Some a => String.eqb a "" | None => true end)
       else None;
     reject_button := TxState_eqb (state c) idle;
     loading_text :=
       match state c with
       | signing => Some "Waiting for signature..."
       | broadcasting => Some "Broadcasting transaction..."
       | _ => None
       end;
     success_panel :=
       if TxState_eqb (state c) success
       then Some (if String.eqb (txid c) "" then None else Some (txid c))
       else None;
     error_panel :=
       if TxState_eqb (state c) error then Some (error_text c) else None |}.

(** What the user can do to a card; a click on the confirm button comes with
    the environment its handler will meet. *)
Inductive Action : Type :=
| ClickReject
| ClickConfirm (w : World)
| ToggleRentEnergy (checked : bool).

(** An action reaches its handler when the element it needs is rendered
    (and, for the confirm button, not disabled). *)
Definition dispatch (props : Props) (addr : option string) (c : Card) (a : Action)
  : list Event * Card :=
  let v := render addr c in
  match a with
  | ClickReject =>
      if reject_button v then fst (handleReject props c) else ([], c)
  | ClickConfirm w =>
      match confirm_button v with
      | Some false => fst (handleSignWithEnergy props w c)
      | _ => ([], c)
      end
  | ToggleRentEnergy checked =>
      match rental_checkbox v with
      | Some _ => fst (setRentEnergy checked c)
      | None => ([], c)
      end
  end.

(** The life of one card: the actions of the user, one after the other,
    each with the [address] the wallet hook gives at that time. *)
Fixpoint session (props : Props) (c : Card)
    (actions : list (option string * Action)) : list Event :=
  match actions with
  | [] => []
  | (addr, a) :: rest =>
      let r := dispatch props addr c a in
      (fst r ++ session props (snd r) rest)%list
  end.

(** The states a log goes through, one per render. *)
Fixpoint states_of (log : list Event) : list TxState :=
  match log with
  | [] => []
  | Rendered c :: r => state c :: states_of r
  | _ :: r => states_of r
  end.

(** The edges of the life cycle. *)
Definition documented_edge (a b : TxState) : bool :=
  match a, b with
  | idle, renting | idle, signing | idle, error
  | renting, signing
  | signing, broadcasting | signing, error
  | broadcasting, success | broadcasting, error => true
  | _, _ => false
  end.

(** Starting in [s], every change of state along [l] is a documented edge. *)
Fixpoint follows_edges (s : TxState) (l : list TxState) : bool :=
  match l with
  | [] => true
  | s' :: r => (TxState_eqb s s' || documented_edge s s') && follows_edges s' r
  end.

(** The messages a log puts before the user: the error panel of each render. *)
Fixpoint displayed_messages (addr : option string) (log : list Event) : list string :=
  match log with
  | [] => []
  | Rendered c :: r =>
      match error_panel (render addr c) with
      | Some m => m :: displayed_messages addr r
      | None => displayed_messages addr r
      end
  | _ :: r => displayed_messages addr r
  end.

(* ------------------------------------------------------------------ *)
(** ** Running the handlers *)

Arguments or_else : simpl never.
Arguments detailedError : simpl never.

(** Unfold a handler down to the outcomes the environment decides, and go
    through them one by one. *)
Ltac run_handler :=
  cbv beta delta [handleSignWithEnergy handleSign handleReject rent_step
                  sign_and_broadcast analysed_failure try_catch bind ret throw
                  await sleep call_opt setState setTxid setError setRentEnergy];
  cbn;
  repeat match goal with
         | |- context [match ?x with _ => _ end] =>
             lazymatch x with
             | context [match _ with _ => _ end] => fail
             | _ => destruct x; cbn
             end
         end.

(** The same, for a handler whose [onSuccess] is known to return ([H]). *)
Ltac run_handler_with H :=
  cbv beta delta [handleSignWithEnergy handleSign handleReject rent_step
                  sign_and_broadcast analysed_failure try_catch bind ret throw
                  await sleep call_opt setState setTxid setError setRentEnergy];
  cbn;
  repeat (rewrite ?H;
          match goal with
          | |- context [match ?x with _ => _ end] =>
              lazymatch x with
              | context [match _ with _ => _ end] => fail
              | _ => destruct x; cbn
              end
          end).

(** The rental step never throws and never leaves [renting]: whatever the
    rental does, it ends with a third render in [renting]. *)
Lemma rent_step_run (tx : UnsignedTransaction) (w : World) (c : Card) :
  exists msg,
    rent_step tx w c =
    ([Rendered (mkCard renting (txid c) (error_text c) (rentEnergy c));
      Rendered (mkCard renting (txid c) "" (rentEnergy c));
      Rendered (mkCard renting (txid c) msg (rentEnergy c))],
     mkCard renting (txid c) msg (rentEnergy c), Resolved tt).
Proof. run_handler; eauto. Qed.

(** One run of the confirm handler from an idle card: its states follow the
    edges, it ends in [success] or [error], in the state of its last render,
    and leaves [txid] alone unless it ends in [success]. *)
Lemma handleSignWithEnergy_run (props : Props) (w : World) (c : Card) :
  state c = idle -> onSuccess_returns props ->
  let r := handleSignWithEnergy props w c in
  follows_edges idle (states_of (fst (fst r))) = true /\
  last (states_of (fst (fst r))) idle = state (snd (fst r)) /\
  (state (snd (fst r)) = success \/
   state (snd (fst r)) = error /\ txid (snd (fst r)) = txid c).
Proof.
  destruct c as [s t e rent]; destruct props as [tx [f|] oe];
    cbn [state txid]; intros -> Hq.
  - pose proof (fun t => Hq f t eq_refl) as Hf. clear Hq.
    run_handler_with Hf; auto.
  - clear Hq. run_handler; auto.
Qed.

Lemma handleSign_run (props : Props) (w : World) (c : Card) :
  state c = idle -> onSuccess_returns props ->
  let r := handleSign props w c in
  follows_edges idle (states_of (fst (fst r))) = true /\
  last (states_of (fst (fst r))) idle = state (snd (fst r)) /\
  (state (snd (fst r)) = success \/
   state (snd (fst r)) = error /\ txid (snd (fst r)) = txid c).
Proof.
  destruct c as [s t e rent]; destruct props as [tx [f|] oe];
    cbn [state txid]; intros -> Hq.
  - pose proof (fun t => Hq f t eq_refl) as Hf. clear Hq.
    run_handler_with Hf; auto.
  - clear Hq. run_handler; auto.
Qed.

Lemma last_cons (a s : TxState) (l : list TxState) :
  last (a :: l) s = last l a.
Proof.
  revert a s; induction l as [|b l IH]; intros a s; [reflexivity|].
  change (last (a :: b :: l) s) with (last (b :: l) s).
  now rewrite !IH.
Qed.

Lemma follows_edges_app (s : TxState) (l1 l2 : list TxState) :
  follows_edges s (l1 ++ l2) =
  follows_edges s l1 && follows_edges (last l1 s) l2.
Proof.
  revert s; induction l1 as [|a l1 IH]; intros s; [reflexivity|].
  cbn [app follows_edges]. now rewrite IH, andb_assoc, last_cons.
Qed.

Lemma states_of_app (l1 l2 : list Event) :
  states_of (l1 ++ l2) = (states_of l1 ++ states_of l2)%list.
Proof.
  induction l1 as [|[c|t|m] l1 IH]; cbn; now rewrite ?IH.
Qed.

(** Outside [idle] no element of the card has a handler to reach. *)
Lemma dispatch_not_idle (props : Props) (addr : option string) (c : Card) (a : Action) :
  state c <> idle -> dispatch props addr c a = ([], c).
Proof.
  intros H. destruct c as [s t e rent]. cbn in H.
  destruct s; try congruence; destruct a; reflexivity.
Qed.

(** One action on an idle card: the states follow the edges and the card
    ends in the state of the last render. *)
Lemma dispatch_idle (props : Props) (addr : option string) (c : Card) (a : Action) :
  state c = idle -> onSuccess_returns props ->
  let r := dispatch props addr c a in
  follows_edges idle (states_of (fst r)) = true /\
  last (states_of (fst r)) idle = state (snd r).
Proof.
  intros Hc Hq. destruct a as [|w|b]; unfold dispatch.
  - destruct c as [s t e rent]; cbn in Hc; subst s. cbn.
    run_handler; auto.
  - destruct (confirm_button (render addr c)) as [[|]|];
      cbn [fst snd states_of follows_edges last]; auto.
    destruct (handleSignWithEnergy_run props w c Hc Hq) as (H1 & H2 & _). auto.
  - destruct c as [s t e rent]; cbn in Hc; subst s. cbn. auto.
Qed.

Lemma session_follows_edges (props : Props)
    (actions : list (option string * Action)) :
  onSuccess_returns props ->
  forall c, follows_edges (state c) (states_of (session props c actions)) = true.
Proof.
  intros Hq.
  induction actions as [|[addr a] rest IH]; intros c; [reflexivity|].
  cbn [session]. rewrite states_of_app, follows_edges_app.
  destruct (TxState_eqb (state c) idle) eqn:E.
  - assert (Hc : state c = idle) by (destruct (state c); (discriminate || reflexivity)).
    destruct (dispatch_idle props addr c a Hc Hq) as [H1 H2].
    rewrite Hc, H1, H2. apply IH.
  - rewrite dispatch_not_idle by (intros Hc; rewrite Hc in E; discriminate).
    cbn [fst snd states_of follows_edges last andb]. apply IH.
Qed.

(** With the rental checked and a signer at hand, the log of the confirm
    handler starts with these five renders, whatever the rental does. *)
Definition through_renting (t e msg : string) : list Event :=
  [Rendered (mkCard renting t e true);
   Rendered (mkCard renting t "" true);
   Rendered (mkCard renting t msg true);
   Rendered (mkCard signing t msg true);
   Rendered (mkCard signing t "" true)].

Lemma renting_always_reaches_signing (props : Props) (w : World)
    (sign : UnsignedTransaction -> outcome SignedTx) (t e : string) :
  signTransaction w = Some sign ->
  exists msg rest,
    fst (fst (handleSignWithEnergy props w (mkCard idle t e true)))
    = (through_renting t e msg ++ rest)%list.
Proof.
  intros Hs. unfold handleSignWithEnergy. rewrite Hs. cbn [rentEnergy].
  unfold try_catch, bind at 1.
  destruct (rent_step_run (transaction props) w (mkCard idle t e true)) as [msg Hr].
  rewrite Hr. cbn [txid error_text rentEnergy].
  exists msg. unfold through_renting.
  run_handler; eauto.
Qed.


(** [txid] is written on the way through [success] only. *)
Lemma txid_only_after_success (props : Props) (w : World) (c : Card) :
  In success (states_of (fst (fst (handleSignWithEnergy props w c)))) \/
  txid (snd (fst (handleSignWithEnergy props w c))) = txid c.
Proof.
  destruct c as [s t e rent]. run_handler; auto 12.
Qed.

(** A world in which the rental route cannot be reached, the wallet signs
    and the network takes the transaction. *)
Definition rental_down : World :=
  {| signTransaction := Some (fun _ => Resolved {| txID := "7f3a" |});
     network_name := "nile";
     fetch_rent_energy := fun _ => Rejected (Error "Failed to fetch");
     import_tronweb := Resolved tt;
     sendRawTransaction := fun _ =>
       Resolved {| result := true; result_txid := "7f3a";
                   result_message := ""; result_code := "" |};
     fetch_analyze_error := fun _ => Rejected (Error "Failed to fetch") |}.

(** A world in which the wallet declines to sign. *)
Definition signer_declines : World :=
  {| signTransaction := Some (fun _ => Rejected (Error "Confirmation declined by user"));
     network_name := "nile";
     fetch_rent_energy := fun _ =>
       Resolved {| ok := true;
                   json := Resolved {| rental_success := true;
                                       rental_message := "Energy rented" |} |};
     import_tronweb := Resolved tt;
     sendRawTransaction := fun _ =>
       Resolved {| result := true; result_txid := "7f3a";
                   result_message := ""; result_code := "" |};
     fetch_analyze_error := fun _ => Resolved {| ok := false; json := Rejected (Error "") |} |}.

Definition usdt_transfer : UnsignedTransaction :=
  {| contract_type := Some "TriggerSmartContract";
     metadata := Some {| recipient := Some "TRecipient";
                         estimated_energy := Some 32000%N |} |}.

(* ------------------------------------------------------------------ *)
(** ** The claims about the card *)

(** C2: along the whole life of a card, whatever the user does and whatever
    the wallet, the back end and the network answer, every change of [state]
    is one of the eight documented edges; from [broadcasting] these lead to
    [success] and [error] only, never back to [idle]; and a card in
    [success] or [error] stays as it is under every action. *)
Theorem transitions_follow_documented_edges (tx : UnsignedTransaction)
    (actions : list (option string * Action)) :
  follows_edges idle
    (states_of (session (mounted_by_ChatMessage tx) initial actions)) = true /\
  (forall s, documented_edge broadcasting s
             = TxState_eqb s success || TxState_eqb s error) /\
  documented_edge broadcasting idle = false /\
  (forall s, documented_edge success s = false /\ documented_edge error s = false) /\
  (forall props addr a t e r,
     dispatch props addr (mkCard success t e r) a = ([], mkCard success t e r) /\
     dispatch props addr (mkCard error t e r) a = ([], mkCard error t e r)).
Proof.
  split.
  { assert (Hq : onSuccess_returns (mounted_by_ChatMessage tx))
      by (intros f t H; discriminate).
    exact (session_follows_edges _ actions Hq initial). }
  split; [intros []; reflexivity|].
  split; [reflexivity|].
  split; [intros []; split; reflexivity|].
  intros props addr a t e r; split; apply dispatch_not_idle; discriminate.
Qed.

(** A remark on the props: the call of [onSuccess] stands inside the [try]
    block, behind [setState('success')]; a callback that throws would take
    the card on to [error].  No card of the repository is given one. *)
Example throwing_onSuccess_is_caught :
  states_of (fst (fst (handleSignWithEnergy
                         {| transaction := usdt_transfer;
                            onSuccess := Some (fun _ => Rejected (Error "callback failed"));
                            onError := None |}
                         rental_down (mkCard idle "" "" false))))
  = [signing; signing; broadcasting; broadcasting; success; success; error].
Proof. reflexivity. Qed.

(** C5, evaluated.  The flow: with the rental checked, the handler goes
    from [renting] to [signing] whatever the rental does.  The warning: it
    is stored in the card but the card prints its message in state [error]
    only, so during these renders nothing is shown; when the rental route is
    down and the rest goes well, the warning is stored and no message is
    ever shown. *)
Theorem rental_warning_is_stored_not_shown :
  (forall props net sign fr imp send fa t e,
     exists msg rest,
       fst (fst (handleSignWithEnergy props
                   {| signTransaction := Some sign; network_name := net;
                      fetch_rent_energy := fr; import_tronweb := imp;
                      sendRawTransaction := send; fetch_analyze_error := fa |}
                   (mkCard idle t e true)))
       = (through_renting t e msg ++ rest)%list /\
       forall addr, displayed_messages addr (through_renting t e msg) = []) /\
  (let log := fst (fst (handleSignWithEnergy (mounted_by_ChatMessage usdt_transfer)
                          rental_down initial)) in
   In (Rendered (mkCard renting ""
                   "Energy rental failed, proceeding with transaction..." true)) log /\
   states_of log = [renting; renting; renting; signing; signing;
                    broadcasting; broadcasting; success] /\
   forall addr, displayed_messages addr log = []).
Proof.
  split.
  - intros props net sign fr imp send fa t e.
    destruct (renting_always_reaches_signing props
                {| signTransaction := Some sign; network_name := net;
                   fetch_rent_energy := fr; import_tronweb := imp;
                   sendRawTransaction := send; fetch_analyze_error := fa |}
                sign t e eq_refl) as (msg & rest & H).
    exists msg, rest. split; [exact H | reflexivity].
  - cbv zeta. split; [|split].
    + cbn. auto.
    + reflexivity.
    + reflexivity.
Qed.

(** C6: when the signer rejects, the confirm handler ends in [error], its
    last two renders being [signing] and [error], and [txid] is still the
    empty string the card was mounted with; and whatever happens, a run that
    does not end in [success] leaves [txid] empty. *)
Theorem signer_rejection_leaves_txid_unset (props : Props) (w : World)
    (sign : UnsignedTransaction -> outcome SignedTx) (e : Exn)
    (e0 : string) (rent : bool) :
  signTransaction w = Some sign ->
  sign (transaction props) = Rejected e ->
  let r := handleSignWithEnergy props w (mkCard idle "" e0 rent) in
  state (snd (fst r)) = error /\
  txid (snd (fst r)) = "" /\
  (exists pre, states_of (fst (fst r)) = (pre ++ [signing; error])%list) /\
  (forall w', let r' := handleSignWithEnergy props w' (mkCard idle "" e0 rent) in
              In success (states_of (fst (fst r'))) \/ txid (snd (fst r')) = "").
Proof.
  intros Hs Hr. cbv zeta.
  split; [|split; [|split]].
  - unfold handleSignWithEnergy. rewrite Hs.
    cbv beta delta [sign_and_broadcast try_catch bind]. 
    destruct rent; cbn [rentEnergy].
    + destruct (rent_step_run (transaction props) w (mkCard idle "" e0 true)) as [msg Hrent].
      rewrite Hrent. cbn. unfold await. rewrite Hr. run_handler; reflexivity.
    + cbn. unfold await. rewrite Hr. run_handler; reflexivity.
  - unfold handleSignWithEnergy. rewrite Hs.
    cbv beta delta [sign_and_broadcast try_catch bind].
    destruct rent; cbn [rentEnergy].
    + destruct (rent_step_run (transaction props) w (mkCard idle "" e0 true)) as [msg Hrent].
      rewrite Hrent. cbn. unfold await. rewrite Hr. run_handler; reflexivity.
    + cbn. unfold await. rewrite Hr. run_handler; reflexivity.
  - unfold handleSignWithEnergy. rewrite Hs.
    cbv beta delta [sign_and_broadcast try_catch bind].
    destruct rent; cbn [rentEnergy].
    + destruct (rent_step_run (transaction props) w (mkCard idle "" e0 true)) as [msg Hrent].
      rewrite Hrent. cbn. unfold await. rewrite Hr.
      exists [renting; renting; renting; signing; signing].
      run_handler; reflexivity.
    + cbn. unfold await. rewrite Hr. exists [signing; signing].
      run_handler; reflexivity.
  - intros w'. cbv zeta. apply txid_only_after_success.
Qed.

Lemma signer_rejection_leaves_txid_unset_witness :
  let props := mounted_by_ChatMessage usdt_transfer in
  let r := handleSignWithEnergy props signer_declines initial in
  state (snd (fst r)) = error /\
  txid (snd (fst r)) = "" /\
  (exists pre, states_of (fst (fst r)) = (pre ++ [signing; error])%list) /\
  (forall w', let r' := handleSignWithEnergy props w' initial in
              In success (states_of (fst (fst r'))) \/ txid (snd (fst r')) = "").
Proof.
  exact (signer_rejection_leaves_txid_unset
           (mounted_by_ChatMessage usdt_transfer) signer_declines
           (fun _ => Rejected (Error "Confirmation declined by user"))
           (Error "Confirmation declined by user") "" true eq_refl eq_refl).
Defined.

End TransactionCard.

(* ================================================================== *)
(** * The risk checks and their aggregation *)
(* ================================================================== *)

Module RiskAggregator.

(** Modelled from the spec: the severities of [AddressRiskVerdict], and
    [UNKNOWN], the contribution of a check that gave no answer.  Neither
    the aggregator nor its checks are among the sources; everything in this
    module follows section 4.1 of the specification. *)
Inductive Level : Type :=
| SAFE | LOW | MEDIUM | HIGH | CRITICAL | UNKNOWN.

(** Modelled from the spec: the order [SAFE < LOW < MEDIUM < HIGH < CRITICAL]
    of the severities, with [UNKNOWN] counted as [MEDIUM] when the maximum
    is taken. *)
Definition weight (l : Level) : nat :=
  match l with
  | SAFE => 0
  | LOW => 1
  | MEDIUM => 2
  | UNKNOWN => 2
  | HIGH => 3
  | CRITICAL => 4
  end.

(** Modelled from the spec: how a check stands when the aggregation point
    has waited for it: it completed with a level, it hit its timeout, or it
    ended with an error, a network failure or another one.  What a check
    answers when a service of its own is slow is a level it completes
    with. *)
Inductive CheckOutcome : Type :=
| Completed (l : Level)
| TimedOut
| NetworkError
| OtherError.

Definition failed (o : CheckOutcome) : bool :=
  match o with
  | Completed _ => false
  | TimedOut | NetworkError | OtherError => true
  end.

(** Modelled from the spec: "a check that times out or errors degrades to
    an [UNKNOWN] contribution". *)
Definition contribution (o : CheckOutcome) : Level :=
  match o with
  | Completed l => l
  | TimedOut | NetworkError | OtherError => UNKNOWN
  end.

(** Modelled from the spec: the reducer of [RiskAggregator.evaluate], the
    maximum of the contributions (never an average). *)
Definition worse (a b : Level) : Level :=
  if weight a <? weight b then b else a.

(** Modelled from the spec: [RiskAggregator.evaluate], once every check
    that applies has completed or hit its timeout.  There is always a check
    that applies ([first], the malicious-tag lookup); [others] are the
    rest, as many as the context asks for. *)
Definition evaluate (first : CheckOutcome) (others : list CheckOutcome) : Level :=
  fold_left worse (map contribution others) (contribution first).

(* ------------------------------------------------------------------ *)

Lemma worse_weight (a b : Level) : weight (worse a b) = Nat.max (weight a) (weight b).
Proof.
  unfold worse. destruct (weight a <? weight b) eqn:E.
  - apply Nat.ltb_lt in E. lia.
  - apply Nat.ltb_ge in E. lia.
Qed.

Lemma fold_worse_weight (l : list Level) :
  forall a, weight a <= weight (fold_left worse l a) /\
            Forall (fun x => weight x <= weight (fold_left worse l a)) l.
Proof.
  induction l as [|x l IH]; intros a; cbn [fold_left].
  - split; [lia | constructor].
  - destruct (IH (worse a x)) as [H1 H2]. rewrite worse_weight in H1.
    split; [lia|]. constructor; [lia | exact H2].
Qed.

(** The maximum is one of the levels it is taken of. *)
Lemma fold_worse_In (l : list Level) :
  forall a, In (fold_left worse l a) (a :: l).
Proof.
  induction l as [|x l IH]; intros a; cbn [fold_left].
  - now left.
  - assert (E : worse a x = a \/ worse a x = x)
      by (unfold worse; destruct (weight a <? weight x); auto).
    destruct (IH (worse a x)) as [H|H]; [|right; right; exact H].
    destruct E as [E|E]; rewrite E in *; [left | right; left]; exact H.
Qed.

Lemma fold_worse_all_unknown (l : list Level) :
  Forall (fun x => x = UNKNOWN) l -> fold_left worse l UNKNOWN = UNKNOWN.
Proof.
  induction 1 as [|x l Hx Hl IH]; cbn [fold_left]; [reflexivity|].
  subst x. exact IH.
Qed.

Lemma failed_contribution (o : CheckOutcome) :
  failed o = true -> contribution o = UNKNOWN.
Proof. destruct o; [discriminate | reflexivity ..]. Qed.

Lemma evaluate_upper_bound (first : CheckOutcome) (others : list CheckOutcome) :
  Forall (fun o => weight (contribution o) <= weight (evaluate first others))
         (first :: others).
Proof.
  unfold evaluate.
  destruct (fold_worse_weight (map contribution others) (contribution first)) as [H1 H2].
  constructor; [exact H1|]. now rewrite Forall_map in H2.
Qed.

Lemma evaluate_all_failed (first : CheckOutcome) (others : list CheckOutcome) :
  Forall (fun o => failed o = true) (first :: others) ->
  evaluate first others = UNKNOWN.
Proof.
  intros H. inversion H as [|? ? Hf Hr]; subst. unfold evaluate.
  rewrite (failed_contribution first Hf). apply fold_worse_all_unknown.
  rewrite Forall_map. revert Hr. apply Forall_impl.
  intros o. apply failed_contribution.
Qed.

(* ------------------------------------------------------------------ *)
(** ** What the aggregation gives *)

(** C3: [evaluate] is a function to a level, so whatever the checks did the
    caller gets a verdict.  A check that timed out or ended with an error
    contributes [UNKNOWN], which weighs as [MEDIUM]; the verdict weighs at
    least as much as every contribution and is one of them, so a check that
    failed keeps it at [MEDIUM] or above and never hides a [HIGH] or
    [CRITICAL] of another check; and when every check fails, by network
    error or otherwise, the verdict is [UNKNOWN]. *)
Theorem evaluate_always_gives_a_verdict (first : CheckOutcome)
    (others : list CheckOutcome) :
  let verdict := evaluate first others in
  (forall o, failed o = true -> contribution o = UNKNOWN) /\
  weight UNKNOWN = weight MEDIUM /\
  Forall (fun o => weight (contribution o) <= weight verdict) (first :: others) /\
  In verdict (map contribution (first :: others)) /\
  (Exists (fun o => failed o = true) (first :: others) ->
   weight MEDIUM <= weight verdict) /\
  (Forall (fun o => o = NetworkError) (first :: others) -> verdict = UNKNOWN) /\
  (Forall (fun o => failed o = true) (first :: others) -> verdict = UNKNOWN).
Proof.
  cbv zeta.
  split; [exact failed_contribution|].
  split; [reflexivity|].
  split; [apply evaluate_upper_bound|].
  split; [unfold evaluate; cbn [map]; apply fold_worse_In|].
  split; [|split].
  - intros H. apply Exists_exists in H. destruct H as (o & Hin & Hf).
    pose proof (evaluate_upper_bound first others) as Hb.
    rewrite Forall_forall in Hb. specialize (Hb o Hin).
    rewrite (failed_contribution o Hf) in Hb. exact Hb.
  - intros H. apply evaluate_all_failed. revert H. apply Forall_impl.
    intros o ->. reflexivity.
  - apply evaluate_all_failed.
Qed.

(** The lookups of a transfer target all fail by network error: the verdict
    is [UNKNOWN]; one of them completes with [HIGH] or with [SAFE]: the
    verdict is [HIGH], or still at the weight of [MEDIUM]. *)
Example lookups_of_a_transfer_target :
  evaluate NetworkError [NetworkError; NetworkError] = UNKNOWN /\
  evaluate TimedOut [Completed HIGH; NetworkError] = HIGH /\
  evaluate (Completed SAFE) [TimedOut; Completed LOW] = UNKNOWN.
Proof. repeat split. Qed.

End RiskAggregator.

(* ================================================================== *)
(** * Burn or rent *)
(* ================================================================== *)

Module CostOptimizer.
Local Open Scope string_scope.
Local Open Scope N_scope.

(** Modelled from the spec: [FuelQuote], a rental offer; costs in
    micro-units (sun) per unit of fuel, the commitment in days.  The total
    of a quote for an estimate is the estimate times the unit cost, as in
    scenario B and in the output of the energy-rental skill (32,000 units at
    120 give 3.84 TRX "for 3 days"). *)
Record FuelQuote : Type := {
  provider : string;
  unit_cost : N;
  duration : N
}.

Inductive Strategy : Type := burn | rent.

Record Recommendation : Type := {
  strategy : Strategy;
  quote : option FuelQuote;
  savings_pct : N
}.

Definition burn_total (estimate burn_unit_cost : N) : N := estimate * burn_unit_cost.

Definition rental_total (estimate : N) (q : FuelQuote) : N := estimate * unit_cost q.

(** The tie-break among rentals: lowest total, then shortest commitment. *)
Definition no_worse (estimate : N) (q b : FuelQuote) : bool :=
  (rental_total estimate q <? rental_total estimate b) ||
  ((rental_total estimate q =? rental_total estimate b) && (duration q <=? duration b)).

Fixpoint best (estimate : N) (quotes : list FuelQuote) : option FuelQuote :=
  match quotes with
  | [] => None
  | q :: rest =>
      match best estimate rest with
      | None => Some q
      | Some b => if no_worse estimate q b then Some q else Some b
      end
  end.

(** Modelled from the spec: [CostOptimizer.recommend] (the script
    [calculate_rental] is not among the sources).  Rent when the best rental
    saves more than the threshold of 20 percent, "savings threshold (>20%)"
    in the skill: [rental < 0.8 * burn], which in whole micro-units is
    [10 * rental < 8 * burn]. *)
Definition recommend (estimate burn_unit_cost : N) (quotes : list FuelQuote)
  : Recommendation :=
  let b := burn_total estimate burn_unit_cost in
  match best estimate quotes with
  | None => {| strategy := burn; quote := None; savings_pct := 0 |}
  | Some q =>
      let r := rental_total estimate q in
      if 10 * r <? 8 * b
      then {| strategy := rent; quote := Some q;
              savings_pct := 100 * (b - r) / b |}
      else {| strategy := burn; quote := None; savings_pct := 0 |}
  end.

(** The words of the claim: the least rental total over the quotes, when
    there is a quote. *)
Fixpoint min_rental_total (estimate : N) (quotes : list FuelQuote) : option N :=
  match quotes with
  | [] => None
  | q :: rest =>
      match min_rental_total estimate rest with
      | None => Some (rental_total estimate q)
      | Some m => Some (N.min (rental_total estimate q) m)
      end
  end.

(** [min_rental_total(Q) < 0.8 * burn_total(e)], in whole micro-units. *)
Definition below_threshold (estimate burn_unit_cost : N) (quotes : list FuelQuote) : bool :=
  match min_rental_total estimate quotes with
  | Some m => 10 * m <? 8 * burn_total estimate burn_unit_cost
  | None => false
  end.

(** Scenario B. *)
Definition scenario_B_quote : FuelQuote :=
  {| provider := "JustLend DAO"; unit_cost := 120; duration := 3 |}.

(* ------------------------------------------------------------------ *)

Lemma best_is_min (estimate : N) (quotes : list FuelQuote) :
  option_map (rental_total estimate) (best estimate quotes)
  = min_rental_total estimate quotes.
Proof.
  induction quotes as [|q rest IH]; [reflexivity|].
  cbn [best min_rental_total]. rewrite <- IH.
  destruct (best estimate rest) as [b|]; [|reflexivity].
  cbn [option_map]. unfold no_worse.
  destruct (rental_total estimate q <? rental_total estimate b) eqn:E1; cbn [orb].
  - apply N.ltb_lt in E1. cbn [option_map]. f_equal. lia.
  - apply N.ltb_ge in E1.
    destruct (rental_total estimate q =? rental_total estimate b) eqn:E2; cbn [andb].
    + apply N.eqb_eq in E2.
      destruct (duration q <=? duration b); cbn [option_map]; f_equal; lia.
    + apply N.eqb_neq in E2. cbn [option_map]. f_equal. lia.
Qed.

(** [min_rental_total] is the total of some quote, and no quote has less. *)
Lemma min_rental_total_least (estimate : N) (quotes : list FuelQuote) (m : N) :
  min_rental_total estimate quotes = Some m ->
  (exists q, In q quotes /\ rental_total estimate q = m) /\
  Forall (fun q => m <= rental_total estimate q) quotes.
Proof.
  revert m; induction quotes as [|q rest IH]; intros m; cbn [min_rental_total];
    [discriminate|].
  destruct (min_rental_total estimate rest) as [m'|] eqn:E.
  - intros [= <-]. destruct (IH m' eq_refl) as [(q' & Hin & Hq') Hall].
    split.
    + destruct (N.le_gt_cases (rental_total estimate q) m') as [Hle|Hgt].
      * exists q. split; [now left | lia].
      * exists q'. split; [now right | lia].
    + constructor; [lia|].
      eapply Forall_impl; [|exact Hall]. cbn. intros a Ha. lia.
  - intros [= <-]. destruct rest as [|q' rest'].
    + split; [exists q; split; [now left | reflexivity]|].
      constructor; [lia | constructor].
    + cbn [min_rental_total] in E.
      destruct (min_rental_total estimate rest'); discriminate.
Qed.

(** C4: [recommend] says [rent] exactly when the least rental total is
    strictly below 0.8 times the burn total, and [burn] otherwise (also when
    there is no quote); and in scenario B the burn total is 13,440,000, the
    rental total 3,840,000, the savings 71 percent, and the answer [rent]. *)
Theorem recommend_rent_iff_below_threshold (estimate burn_unit_cost : N)
    (quotes : list FuelQuote) :
  strategy (recommend estimate burn_unit_cost quotes)
  = (if below_threshold estimate burn_unit_cost quotes then rent else burn) /\
  burn_total 32000 420 = 13440000 /\
  rental_total 32000 scenario_B_quote = 3840000 /\
  min_rental_total 32000 [scenario_B_quote] = Some 3840000 /\
  recommend 32000 420 [scenario_B_quote]
  = {| strategy := rent; quote := Some scenario_B_quote; savings_pct := 71 |}.
Proof.
  split; [|repeat split; reflexivity].
  unfold recommend, below_threshold. rewrite <- best_is_min.
  destruct (best estimate quotes) as [q|]; cbn [option_map]; [|reflexivity].
  cbv zeta.
  destruct (10 * rental_total estimate q <? 8 * burn_total estimate burn_unit_cost);
    reflexivity.
Qed.

End CostOptimizer.

(* ================================================================== *)
(** * Explaining a failure *)
(* ================================================================== *)

Module ErrorClassifier.
Import JsString.
Local Open Scope string_scope.

(** The value of a hexadecimal digit. *)
Definition hex_digit (c : ascii) : option N :=
  let n := N_of_ascii c in
  if ((48 <=? n) && (n <=? 57))%N then Some (n - 48)%N
  else if ((97 <=? n) && (n <=? 102))%N then Some (n - 87)%N
  else if ((65 <=? n) && (n <=? 70))%N then Some (n - 55)%N
  else None.

(** Two digits a byte; [None] when the text is not of that form. *)
Fixpoint decode_hex (s : str) : option str :=
  match s with
  | [] => Some []
  | [_] => None
  | hi :: lo :: rest =>
      match hex_digit hi, hex_digit lo, decode_hex rest with
      | Some h, Some l, Some t => Some (ascii_of_N (16 * h + l) :: t)
      | _, _, _ => None
      end
  end.

Definition hex_char (n : N) : ascii :=
  if (n <? 10)%N then ascii_of_N (48 + n) else ascii_of_N (87 + n).

Fixpoint encode_hex (s : str) : str :=
  match s with
  | [] => []
  | c :: rest =>
      hex_char (N_of_ascii c / 16) :: hex_char (N_of_ascii c mod 16) :: encode_hex rest
  end.

(** Modelled from the spec: the normalisation of the raw error text, "Hex
    decoding" in the error-analysis skill: a text in hexadecimal is replaced
    by the text it encodes. *)
Definition normalize (rawError : str) : str :=
  match rawError with
  | [] => []
  | _ => match decode_hex rawError with
         | Some t => t
         | None => rawError
         end
  end.

(** Modelled from the spec: the fixed taxonomy. *)
Inductive Category : Type :=
| InsufficientBalance
| InsufficientFuel
| AccountNotActivated
| ExpiredTransaction
| ContractRevert
| Unknown.

(** The error messages of the table "Common errors handled" of the skill. *)
Definition taxonomy : list (str * Category) :=
  [ (lit "balance is not sufficient", InsufficientBalance);
    (lit "Contract validate error", InsufficientFuel);
    (lit "account not found", AccountNotActivated);
    (lit "Transaction expired", ExpiredTransaction);
    (lit "REVERT opcode", ContractRevert) ].

Definition includes (needle hay : str) : bool :=
  match indexOf needle hay with
  | Some _ => true
  | None => false
  end.

Fixpoint first_match (table : list (str * Category)) (text : str) : Category :=
  match table with
  | [] => Unknown
  | (pattern, c) :: rest =>
      if includes pattern text then c else first_match rest text
  end.

(** Modelled from the spec: [ErrorDiagnosis]. *)
Record ErrorDiagnosis : Type := {
  root_cause : string;
  contributing_factors : list string;
  remedies : list string
}.

(** The context tag of the error-analysis boundary. *)
Inductive Context : Type := during_transfer | during_signing | during_broadcast | during_validation.

(** What the skill says of each category: the "Meaning" and the "Solution"
    of its table, and for the energy shortage the two causes and the two
    suggestions of its example answer; for [Unknown], the words of the spec. *)
Definition knowledge (c : Category) : string * list string * list string :=
  match c with
  | InsufficientBalance =>
      ("TRX balance too low", [], ["Top up TRX"])
  | InsufficientFuel =>
      ("Energy/bandwidth shortage",
       ["No TRX staked for energy"; "Account balance below the fee"],
       ["Top up TRX"; "Stake or rent energy"])
  | AccountNotActivated =>
      ("Account not activated", [], ["Send 1 TRX to activate"])
  | ExpiredTransaction =>
      ("TX took too long", [], ["Retry transaction"])
  | ContractRevert =>
      ("Smart contract execution failed", [], ["Check contract parameters"])
  | Unknown =>
      ("Unknown failure", [], ["Retry"; "Inspect manually"])
  end.

Definition diagnosis_of (c : Category) : ErrorDiagnosis :=
  match knowledge c with
  | (cause, factors, steps) =>
      {| root_cause := cause;
         contributing_factors := firstn 2 factors;
         remedies := firstn 2 steps |}
  end.

(** Modelled from the spec: [ErrorClassifier.classify] (the script
    [analyze_error] is not among the sources). *)
Definition classify (rawError : str) (context : Context) : ErrorDiagnosis :=
  diagnosis_of (first_match taxonomy (normalize rawError)).

(** The fall-back diagnosis. *)
Definition unknown_failure : ErrorDiagnosis := diagnosis_of Unknown.

(* ------------------------------------------------------------------ *)

Lemma hex_digits_of_byte (c : ascii) :
  hex_digit (hex_char (N_of_ascii c / 16)) = Some (N_of_ascii c / 16)%N /\
  hex_digit (hex_char (N_of_ascii c mod 16)) = Some (N_of_ascii c mod 16)%N.
Proof.
  destruct c as [[] [] [] [] [] [] [] []]; split; reflexivity.
Qed.

Lemma decode_encode_hex (s : str) : decode_hex (encode_hex s) = Some s.
Proof.
  induction s as [|c s IH]; [reflexivity|].
  cbn [encode_hex decode_hex].
  destruct (hex_digits_of_byte c) as [Hh Hl]. rewrite Hh, Hl, IH.
  f_equal. f_equal.
  rewrite <- N.div_mod by discriminate.
  apply ascii_N_embedding.
Qed.

Lemma normalize_encode_hex (s : str) : normalize (encode_hex s) = s.
Proof.
  unfold normalize. rewrite decode_encode_hex. now destruct s.
Qed.

Lemma first_match_none (table : list (str * Category)) (text : str) :
  Forall (fun p => indexOf (fst p) text = None) table ->
  first_match table text = Unknown.
Proof.
  induction 1 as [|[pattern c] rest Hp Hrest IH]; [reflexivity|].
  cbn [first_match]. unfold includes. cbn [fst] in Hp. now rewrite Hp.
Qed.

(** C8: the diagnosis has at most two contributing factors and at most two
    remedies; it is the diagnosis of the first entry of the taxonomy that
    occurs in the normalised text; an error given in hexadecimal is
    diagnosed as the text it encodes; and when no entry occurs the
    diagnosis is the generic one, "unknown failure: retry or inspect
    manually", with no contributing factor made up. *)
Theorem classify_is_terse_and_falls_back (rawError : str) (context : Context) :
  length (contributing_factors (classify rawError context)) <= 2 /\
  length (remedies (classify rawError context)) <= 2 /\
  classify rawError context = diagnosis_of (first_match taxonomy (normalize rawError)) /\
  (forall text, classify (encode_hex text) context
                = diagnosis_of (first_match taxonomy text)) /\
  (Forall (fun p => indexOf (fst p) (normalize rawError) = None) taxonomy ->
   classify rawError context = unknown_failure /\
   unknown_failure = {| root_cause := "Unknown failure";
                        contributing_factors := [];
                        remedies := ["Retry"; "Inspect manually"] |}).
Proof.
  unfold classify, diagnosis_of.
  destruct (knowledge (first_match taxonomy (normalize rawError))) as [[cause factors] steps] eqn:K.
  cbn [contributing_factors remedies].
  split; [rewrite length_firstn; lia|].
  split; [rewrite length_firstn; lia|].
  split; [reflexivity|].
  split.
  - intros text. now rewrite normalize_encode_hex.
  - intros H. rewrite (first_match_none taxonomy _ H) in K.
    injection K as <- <- <-. split; reflexivity.
Qed.

(** Scenario E: the revert reason arrives in hexadecimal. *)
Lemma classify_is_terse_and_falls_back_witness :
  classify (lit "524556455254206f70636f6465206578656375746564") during_broadcast
  = {| root_cause := "Smart contract execution failed";
       contributing_factors := [];
       remedies := ["Check contract parameters"] |} /\
  Forall (fun p => indexOf (fst p) (normalize (lit "74696d656f7574")) = None) taxonomy /\
  classify (lit "74696d656f7574") during_broadcast = unknown_failure.
Proof.
  split; [reflexivity|].
  split; [repeat constructor|].
  apply (proj2 (proj2 (proj2 (proj2
           (classify_is_terse_and_falls_back (lit "74696d656f7574") during_broadcast))))).
  repeat constructor.
Defined.

End ErrorClassifier.

(* ================================================================== *)
(** * Sample replies of the assistant *)
(* ================================================================== *)

Module ChatInterface.
Import JsString StreamParser.

(** A transaction block as the assistant writes it. *)
Definition block (body : str) : str := START_MARKER ++ body ++ END_MARKER.

(** The body of a block used in the samples below: [{}], which is valid
    JSON. *)
Definition sample_body : str := lit "{}".

(** What the handlers and the card read of the value [JSON.parse("{}")]:
    an object without [raw_data] and without [metadata]. *)
Definition empty_object : TransactionCard.UnsignedTransaction :=
  {| TransactionCard.contract_type := None; TransactionCard.metadata := None |}.

(** A stand-in for [JSON.parse] at the texts used in the samples: it takes
    [{}] and refuses the others, none of which is valid JSON. *)
Definition sample_transaction_parse (s : str) : option TransactionCard.UnsignedTransaction :=
  if list_eq_dec Ascii.ascii_dec s sample_body then Some empty_object else None.

End ChatInterface.

(* ================================================================== *)
(** * The parser between calls *)
(* ================================================================== *)

Module ParserStates.
Import JsString StreamParser.

Section Facts.

Variable J : Type.
Variable JSON_parse : str -> option J.

(** What the three fields hold between two calls of [parse] on a parser
    that started from [reset()]: no buffered input, and collected block
    content only while a block is open. *)
Definition between_calls (p : parser) : Prop :=
  buffer p = [] /\ (inJsonBlock p = false -> jsonBuffer p = []).

Lemma exec_between_calls (n : nat) :
  forall b inJ jb, length b <= n -> (inJ = false -> jb = []) ->
  between_calls (snd (exec JSON_parse (mk b inJ jb))).
Proof.
  induction n as [|n IH]; intros b inJ jb Hn Hj.
  - destruct b; [|cbn in Hn; lia]. rewrite exec_nil. split; auto.
  - destruct b as [|x b']; [rewrite exec_nil; split; auto|].
    remember (x :: b') as b eqn:Eb.
    assert (Hpos : 0 < length b) by (subst b; cbn; lia).
    destruct inJ.
    + destruct (indexOf END_MARKER b) as [i|] eqn:Hi.
      * rewrite (exec_json_some J JSON_parse b jb i Hi). cbn [snd].
        apply IH; [|reflexivity]. rewrite length_skipn. lia.
      * rewrite (exec_json_none J JSON_parse b jb Hi). split; [reflexivity|discriminate].
    + destruct (indexOf START_MARKER b) as [i|] eqn:Hi.
      * rewrite (exec_text_some J JSON_parse b jb i Hi). cbn [snd].
        apply IH; [|discriminate]. rewrite length_skipn. lia.
      * rewrite (exec_text_none J JSON_parse b jb Hi). split; [reflexivity|auto].
Qed.

Lemma feed_between_calls (p : parser) (chunk : str) :
  between_calls p -> between_calls (snd (feed JSON_parse p chunk)).
Proof.
  intros [_ Hj]. unfold feed.
  apply (exec_between_calls (length (buffer p ++ chunk))); auto.
Qed.

Lemma feed_all_between_calls (chunks : list str) :
  forall p, between_calls p -> between_calls (snd (feed_all JSON_parse p chunks)).
Proof.
  induction chunks as [|c rest IH]; intros p Hp; [exact Hp|].
  cbn [feed_all snd]. apply IH, feed_between_calls, Hp.
Qed.

(** A chunk that holds no whole end marker, given to a parser inside a
    block, is collected and gives no item. *)
Lemma feed_open_block (jb c : str) :
  indexOf END_MARKER c = None ->
  feed JSON_parse (mk [] true jb) c = ([], mk [] true (jb ++ c)).
Proof.
  intros H. unfold feed. cbn [buffer inJsonBlock jsonBuffer app].
  exact (exec_json_none J JSON_parse c jb H).
Qed.

Lemma feed_all_open_block (chunks : list str) :
  forall jb, Forall (fun c => indexOf END_MARKER c = None) chunks ->
  feed_all JSON_parse (mk [] true jb) chunks = ([], mk [] true (jb ++ concat chunks)).
Proof.
  induction chunks as [|c rest IH]; intros jb H.
  - cbn. now rewrite app_nil_r.
  - inversion H as [|? ? Hc Hrest]; subst.
    cbn [feed_all]. rewrite (feed_open_block jb c Hc). cbn [fst snd].
    rewrite (IH (jb ++ c) Hrest). cbn [fst snd concat app].
    now rewrite app_assoc.
Qed.

(** A chunk that holds no whole start marker, given to a parser outside a
    block, is text. *)
Lemma feed_text_chunk (jb c : str) :
  indexOf START_MARKER c = None ->
  feed JSON_parse (mk [] false jb) c = (text_before c, mk [] false jb).
Proof.
  intros H. unfold feed. cbn [buffer inJsonBlock jsonBuffer app].
  exact (exec_text_none J JSON_parse c jb H).
Qed.

Lemma feed_all_text_chunks (chunks : list str) :
  forall jb, Forall (fun c => indexOf START_MARKER c = None) chunks ->
  feed_all JSON_parse (mk [] false jb) chunks
  = (flat_map text_before chunks, mk [] false jb).
Proof.
  induction chunks as [|c rest IH]; intros jb H; [reflexivity|].
  inversion H as [|? ? Hc Hrest]; subst.
  cbn [feed_all]. rewrite (feed_text_chunk jb c Hc). cbn [fst snd].
  rewrite (IH jb Hrest). reflexivity.
Qed.

Lemma all_text_text_before (c : str) (r : list (ParsedChunk J)) :
  all_text (text_before c ++ r) = c ++ all_text r.
Proof. destruct c; reflexivity. Qed.

Lemma all_text_flat_map (chunks : list str) :
  all_text (flat_map (@text_before J) chunks) = concat chunks.
Proof.
  induction chunks as [|c rest IH]; [reflexivity|].
  cbn [flat_map concat]. now rewrite all_text_text_before, IH.
Qed.

Lemma all_transactions_flat_map (chunks : list str) :
  all_transactions (flat_map (@text_before J) chunks) = [].
Proof.
  induction chunks as [|c rest IH]; [reflexivity|].
  cbn [flat_map]. destruct c; cbn; exact IH.
Qed.

Lemma feed_empty_chunk (p : parser) :
  buffer p = [] -> feed JSON_parse p [] = ([], p).
Proof.
  destruct p as [b inJ jb]. cbn [buffer]. intros ->.
  unfold feed. cbn [buffer inJsonBlock jsonBuffer app]. apply exec_nil.
Qed.

Lemma feed_all_skips_empty (chunks : list str) :
  forall p, buffer p = [] ->
  feed_all JSON_parse p (filter (fun c => 0 <? length c) chunks)
  = feed_all JSON_parse p chunks.
Proof.
  induction chunks as [|c rest IH]; intros p Hp; [reflexivity|].
  destruct c as [|x c'].
  - change (filter (fun c => 0 <? length c) ([] :: rest))
      with (filter (fun c : list ascii => 0 <? length c) rest).
    cbn [feed_all]. rewrite (feed_empty_chunk p Hp).
    cbn [fst snd app]. rewrite (IH p Hp). now destruct (feed_all JSON_parse p rest).
  - change (filter (fun c => 0 <? length c) ((x :: c') :: rest))
      with ((x :: c') :: filter (fun c : list ascii => 0 <? length c) rest).
    cbn [feed_all].
    rewrite (IH _ (feed_buffer J JSON_parse p (x :: c'))). reflexivity.
Qed.

End Facts.

(** X1: however a stream is cut into chunks, a parser that started from
    [reset()] returns from every call with an empty [buffer], and whenever
    it is outside a block its [jsonBuffer] is empty as well: input is kept
    from one call to the next only as the content of an open block. *)
Theorem parser_rests_with_empty_buffer (J : Type) (JSON_parse : str -> option J)
    (chunks : list str) :
  exists items p',
    parse_chunks JSON_parse reset chunks = Some (items, p') /\
    buffer p' = [] /\
    (inJsonBlock p' = false -> jsonBuffer p' = []).
Proof.
  rewrite parse_chunks_feed_all.
  destruct (feed_all JSON_parse reset chunks) as [items p'] eqn:E.
  exists items, p'. split; [reflexivity|].
  change p' with (snd (items, p')). rewrite <- E.
  apply feed_all_between_calls. split; reflexivity.
Qed.

(** X2: inside a block, chunks none of which holds a whole [JSON>>>] give
    no item at all; they are appended to [jsonBuffer] and the block stays
    open, also when the chunks put together do hold the marker. *)
Theorem open_block_swallows_chunks (J : Type) (JSON_parse : str -> option J)
    (jb : str) (chunks : list str) :
  Forall (fun c => indexOf END_MARKER c = None) chunks ->
  parse_chunks JSON_parse (mk [] true jb) chunks
  = Some ([], mk [] true (jb ++ concat chunks)).
Proof.
  intros H. rewrite parse_chunks_feed_all. f_equal.
  exact (feed_all_open_block J JSON_parse chunks jb H).
Qed.

Lemma open_block_swallows_chunks_witness :
  Forall (fun c => indexOf END_MARKER c = None) [lit "{}JSON>"; lit ">> done"] /\
  indexOf END_MARKER (concat [lit "{}JSON>"; lit ">> done"]) = Some 2 /\
  parse_chunks sample_JSON_parse (mk [] true []) [lit "{}JSON>"; lit ">> done"]
  = Some ([], mk [] true (lit "{}JSON>>> done")).
Proof.
  assert (H : Forall (fun c => indexOf END_MARKER c = None) [lit "{}JSON>"; lit ">> done"])
    by (repeat constructor).
  split; [exact H|]. split; [reflexivity|].
  exact (open_block_swallows_chunks str sample_JSON_parse [] _ H).
Defined.

(** X3: chunks none of which holds a whole [<<<JSON] come back as text, one
    item per non-empty chunk, with nothing lost and no transaction; the
    parser is as after [reset()].  A start marker that is split over two
    chunks is text like the rest. *)
Theorem chunks_without_start_marker_are_text (J : Type) (JSON_parse : str -> option J)
    (chunks : list str) :
  Forall (fun c => indexOf START_MARKER c = None) chunks ->
  exists items,
    parse_chunks JSON_parse reset chunks = Some (items, reset) /\
    items = flat_map text_before chunks /\
    all_text items = concat chunks /\
    all_transactions items = [].
Proof.
  intros H. exists (flat_map text_before chunks).
  rewrite parse_chunks_feed_all. unfold reset.
  rewrite (feed_all_text_chunks J JSON_parse chunks [] H).
  split; [reflexivity|]. split; [reflexivity|].
  split; [apply all_text_flat_map | apply all_transactions_flat_map].
Qed.

Lemma chunks_without_start_marker_are_text_witness :
  Forall (fun c => indexOf START_MARKER c = None) [lit "Pay <<<"; []; lit "JSON{}JSON>>>"] /\
  exists items,
    parse_chunks sample_JSON_parse reset [lit "Pay <<<"; []; lit "JSON{}JSON>>>"]
      = Some (items, reset) /\
    items = flat_map text_before [lit "Pay <<<"; []; lit "JSON{}JSON>>>"] /\
    all_text items = concat [lit "Pay <<<"; []; lit "JSON{}JSON>>>"] /\
    all_transactions items = [].
Proof.
  assert (H : Forall (fun c => indexOf START_MARKER c = None)
                [lit "Pay <<<"; []; lit "JSON{}JSON>>>"]) by (repeat constructor).
  split; [exact H|].
  exact (chunks_without_start_marker_are_text str sample_JSON_parse _ H).
Defined.

(** X4: between calls, an empty chunk gives no item and leaves the parser
    as it is, so dropping the empty chunks of a stream changes neither the
    items nor the final state. *)
Theorem empty_chunks_are_ignored (J : Type) (JSON_parse : str -> option J)
    (p : parser) (chunks : list str) :
  buffer p = [] ->
  parse JSON_parse p [] = Some ([], p) /\
  parse_chunks JSON_parse p (filter (fun c => 0 <? length c) chunks)
  = parse_chunks JSON_parse p chunks.
Proof.
  intros Hp. split.
  - rewrite parse_feed. f_equal. exact (feed_empty_chunk J JSON_parse p Hp).
  - rewrite !parse_chunks_feed_all. f_equal.
    exact (feed_all_skips_empty J JSON_parse chunks p Hp).
Qed.

Lemma empty_chunks_are_ignored_witness :
  parse sample_JSON_parse (mk [] true (lit "{")) [] = Some ([], mk [] true (lit "{")) /\
  parse_chunks sample_JSON_parse (mk [] true (lit "{"))
    (filter (fun c => 0 <? length c) [[]; lit "}JSON>>>"; []; lit "ok"])
  = parse_chunks sample_JSON_parse (mk [] true (lit "{")) [[]; lit "}JSON>>>"; []; lit "ok"].
Proof.
  exact (empty_chunks_are_ignored str sample_JSON_parse (mk [] true (lit "{"))
           [[]; lit "}JSON>>>"; []; lit "ok"] eq_refl).
Defined.

End ParserStates.

(* ================================================================== *)
(** * Runs of the card's handlers *)
(* ================================================================== *)

Module CardRuns.
Import TransactionCard.
Local Open Scope string_scope.

(** The environment [w] with another TronWeb: the import and the broadcast
    answer as given. *)
Definition with_broadcast (w : World) (imp : outcome unit)
    (send : SignedTx -> outcome BroadcastResult) : World :=
  {| signTransaction := signTransaction w;
     network_name := network_name w;
     fetch_rent_energy := fetch_rent_energy w;
     import_tronweb := imp;
     sendRawTransaction := send;
     fetch_analyze_error := fetch_analyze_error w |}.

(** The environment [w] with another rent-energy route. *)
Definition with_rental (w : World)
    (fr : RentRequest -> outcome (Response RentalResult)) : World :=
  {| signTransaction := signTransaction w;
     network_name := network_name w;
     fetch_rent_energy := fr;
     import_tronweb := import_tronweb w;
     sendRawTransaction := sendRawTransaction w;
     fetch_analyze_error := fetch_analyze_error w |}.

(** The calls of the two callbacks in a log. *)
Definition is_OnSuccess (e : Event) : bool :=
  match e with OnSuccess _ => true | _ => false end.
Definition is_OnError (e : Event) : bool :=
  match e with OnError _ => true | _ => false end.

Lemma or_else_nonempty (a b : string) : b <> "" -> or_else a b <> "".
Proof.
  intros Hb. unfold or_else. destruct (String.eqb a "") eqn:E; [exact Hb|].
  now apply String.eqb_neq.
Qed.

Lemma or_else_empty_r (a : string) : or_else a "" = a.
Proof.
  unfold or_else. destruct (String.eqb a "") eqn:E; [|reflexivity].
  apply String.eqb_eq in E. now subst.
Qed.

Lemma detailedError_nonempty (m : string) (a : Analysis) : detailedError m a <> "".
Proof. unfold detailedError. simpl. discriminate. Qed.

Lemma errorMsg_nonempty (m : string) : or_else m "Unknown error" <> "".
Proof. apply or_else_nonempty. discriminate. Qed.

Lemma session_settled (props : Props) (actions : list (option string * Action)) :
  forall c, state c <> idle -> session props c actions = [].
Proof.
  induction actions as [|[addr a] rest IH]; intros c Hc; [reflexivity|].
  cbn [session]. rewrite (dispatch_not_idle props addr c a Hc).
  cbn [fst snd app]. exact (IH c Hc).
Qed.

(** A result of a handler that leaves the card in [success] or in [error],
    and in [error] with a message. *)
Definition settled (r : list Event * Card * outcome unit) : Prop :=
  let final := snd (fst r) in
  (state final = success \/ state final = error) /\
  (state final = error -> error_text final <> "").

Arguments settled : simpl never.

(** Where a run of the confirm handler leaves the card. *)
Lemma confirm_final (props : Props) (w : World) (c : Card) :
  settled (handleSignWithEnergy props w c).
Proof.
  destruct c as [s t e rent].
  run_handler; unfold settled; cbn; (split; [auto|]); intros H; try discriminate H;
    first [ apply detailedError_nonempty | apply errorMsg_nonempty | discriminate ].
Qed.

(** X5: whatever the wallet, the back end and the network do, and whatever
    the callbacks do, a run of the confirm handler leaves the card in
    [success] or in [error]; and a card it leaves in [error] shows a message
    that is not empty. *)
Theorem confirm_always_settles (props : Props) (w : World) (c : Card) :
  let r := handleSignWithEnergy props w c in
  (state (snd (fst r)) = success \/ state (snd (fst r)) = error) /\
  (state (snd (fst r)) = error ->
   forall addr, exists m,
     error_panel (render addr (snd (fst r))) = Some m /\ m <> "").
Proof.
  cbv zeta. destruct (confirm_final props w c) as [Hs He]. cbv zeta in Hs, He.
  split; [exact Hs|]. intros Herr addr.
  exists (error_text (snd (fst (handleSignWithEnergy props w c)))).
  split; [|exact (He Herr)].
  unfold render. cbn [error_panel]. rewrite Herr. reflexivity.
Qed.

(** Unfold a handler and go through the outcomes the environment decides,
    rewriting with what is known of them ([known]) on the way. *)
Ltac run_handler_knowing known :=
  cbv beta delta [handleSignWithEnergy handleSign handleReject rent_step
                  sign_and_broadcast analysed_failure try_catch bind ret throw
                  await sleep call_opt setState setTxid setError setRentEnergy];
  cbn;
  repeat first
    [ progress known; cbn
    | match goal with
      | |- context [match ?x with _ => _ end] =>
          lazymatch x with
          | context [match _ with _ => _ end] => fail
          | _ => destruct x; cbn
          end
      end ].

(** X6: when the wallet rejects the signature, the card never renders
    [broadcasting] or [success], and the run is the same whatever TronWeb
    would have answered: nothing is broadcast without a signature. *)
Theorem no_broadcast_without_signature (props : Props) (w : World)
    (sign : UnsignedTransaction -> outcome SignedTx) (e : Exn) (c : Card)
    (imp : outcome unit) (send : SignedTx -> outcome BroadcastResult) :
  signTransaction w = Some sign ->
  sign (transaction props) = Rejected e ->
  handleSignWithEnergy props (with_broadcast w imp send) c
    = handleSignWithEnergy props w c /\
  ~ In broadcasting (states_of (fst (fst (handleSignWithEnergy props w c)))) /\
  ~ In success (states_of (fst (fst (handleSignWithEnergy props w c)))).
Proof.
  destruct w as [sg net fr imp0 send0 fa]; destruct c as [s t e0 rent];
    destruct props as [tx os oe].
  cbn [signTransaction transaction]. intros -> Hr.
  unfold with_broadcast. cbn [signTransaction network_name fetch_rent_energy
                               fetch_analyze_error].
  run_handler_knowing ltac:(rewrite ?Hr);
    (split; [reflexivity|]); cbn; intuition discriminate.
Qed.

Lemma no_broadcast_without_signature_witness :
  let props := mounted_by_ChatMessage usdt_transfer in
  let w := signer_declines in
  handleSignWithEnergy props
    (with_broadcast w (Rejected (Error "offline")) (fun _ => Rejected (Error "offline")))
    initial
    = handleSignWithEnergy props w initial /\
  ~ In broadcasting (states_of (fst (fst (handleSignWithEnergy props w initial)))) /\
  ~ In success (states_of (fst (fst (handleSignWithEnergy props w initial)))).
Proof.
  exact (no_broadcast_without_signature
           (mounted_by_ChatMessage usdt_transfer) signer_declines
           (fun _ => Rejected (Error "Confirmation declined by user"))
           (Error "Confirmation declined by user") initial
           (Rejected (Error "offline")) (fun _ => Rejected (Error "offline"))
           eq_refl eq_refl).
Defined.

(** X7: with the rental box unchecked, a run from an idle card never renders
    [renting] and is the same whatever the rent-energy route would have
    answered. *)
Theorem unchecked_rental_makes_no_request (props : Props) (w : World) (c : Card)
    (fr : RentRequest -> outcome (Response RentalResult)) :
  state c = idle -> rentEnergy c = false ->
  handleSignWithEnergy props (with_rental w fr) c = handleSignWithEnergy props w c /\
  ~ In renting (states_of (fst (fst (handleSignWithEnergy props w c)))).
Proof.
  destruct w as [sg net fr0 imp0 send0 fa]; destruct c as [s t e0 rent].
  cbn [state rentEnergy]. intros -> ->. unfold with_rental.
  cbn [signTransaction network_name import_tronweb sendRawTransaction
       fetch_analyze_error].
  run_handler; (split; [reflexivity|]); cbn; intuition discriminate.
Qed.

Lemma unchecked_rental_makes_no_request_witness :
  let props := mounted_by_ChatMessage usdt_transfer in
  let c := mkCard idle "" "" false in
  handleSignWithEnergy props
    (with_rental rental_down
       (fun _ => Resolved {| ok := true;
                             json := Resolved {| rental_success := true;
                                                 rental_message := "rented" |} |})) c
    = handleSignWithEnergy props rental_down c /\
  ~ In renting (states_of (fst (fst (handleSignWithEnergy props rental_down c)))).
Proof.
  exact (unchecked_rental_makes_no_request
           (mounted_by_ChatMessage usdt_transfer) rental_down
           (mkCard idle "" "" false) _ eq_refl eq_refl).
Defined.

(** X8: when the wallet signs, TronWeb loads and the broadcast answers with
    [result] true, the card renders [success] with the [txid] of the answer,
    or the [txID] of the signed transaction when the answer has none, and
    with an empty message; [onSuccess] is called with that id, and the card
    stays so when the callback returns or is absent. *)
Theorem success_shows_broadcast_txid (props : Props) (w : World)
    (sign : UnsignedTransaction -> outcome SignedTx) (signedTx : SignedTx)
    (r : BroadcastResult) (c : Card) :
  signTransaction w = Some sign ->
  sign (transaction props) = Resolved signedTx ->
  import_tronweb w = Resolved tt ->
  sendRawTransaction w signedTx = Resolved r ->
  result r = true ->
  let t := or_else (result_txid r) (txID signedTx) in
  let shown := mkCard success t "" (rentEnergy c) in
  let run := handleSignWithEnergy props w c in
  In (Rendered shown) (fst (fst run)) /\
  (onSuccess props = None -> snd (fst run) = shown) /\
  (forall f, onSuccess props = Some f ->
     In (OnSuccess t) (fst (fst run)) /\
     (f t = Resolved tt -> snd (fst run) = shown)).
Proof.
  destruct w as [sg net fr imp0 send0 fa]; destruct c as [s t0 e0 rent];
    destruct props as [tx os oe]; destruct r as [res rt rm rc].
  cbn [signTransaction transaction import_tronweb sendRawTransaction result
       result_txid rentEnergy].
  intros -> Hs -> Hb ->. cbv zeta. rewrite <- (or_else_empty_r (or_else rt (txID signedTx))).
  destruct os as [f|].
  - split; [|split; [discriminate|]].
    + run_handler_knowing ltac:(rewrite ?Hs, ?Hb); cbn; auto 20.
    + intros f' Hf. injection Hf as <-. split.
      * run_handler_knowing ltac:(rewrite ?Hs, ?Hb); cbn; auto 20.
      * intros Hok. run_handler_knowing ltac:(rewrite ?Hs, ?Hb, ?Hok); reflexivity.
  - split; [|split; [|discriminate]].
    + run_handler_knowing ltac:(rewrite ?Hs, ?Hb); cbn; auto 20.
    + intros _. run_handler_knowing ltac:(rewrite ?Hs, ?Hb); reflexivity.
Qed.

(** Go through the members of a concrete log. *)
Ltac log_cases :=
  repeat match goal with
         | H : _ \/ _ |- _ => destruct H
         | H : False |- _ => destruct H
         | H : Rendered _ = _ |- _ => discriminate H
         | H : OnSuccess _ = OnError _ |- _ => discriminate H
         | H : OnError _ = OnSuccess _ |- _ => discriminate H
         | H : OnSuccess _ = OnSuccess _ |- _ => injection H as <-
         | H : OnError _ = OnError _ |- _ => injection H as <-
         end.

Lemma success_shows_broadcast_txid_witness :
  let props := mounted_by_ChatMessage usdt_transfer in
  let shown := mkCard success "7f3a" "" true in
  let run := handleSignWithEnergy props rental_down initial in
  In (Rendered shown) (fst (fst run)) /\
  (onSuccess props = None -> snd (fst run) = shown) /\
  (forall f, onSuccess props = Some f ->
     In (OnSuccess "7f3a") (fst (fst run)) /\
     (f "7f3a" = Resolved tt -> snd (fst run) = shown)).
Proof.
  exact (success_shows_broadcast_txid (mounted_by_ChatMessage usdt_transfer)
           rental_down (fun _ => Resolved {| txID := "7f3a" |}) {| txID := "7f3a" |}
           {| result := true; result_txid := "7f3a";
              result_message := ""; result_code := "" |}
           initial eq_refl eq_refl eq_refl eq_refl eq_refl).
Defined.

(** What is shown below of the result [r] of a run on a card whose rental box is
    [rent], with or without a signer. *)
Definition callbacks_in_order (rent signer : bool)
    (r : list Event * Card * outcome unit) : Prop :=
  let log := fst (fst r) in
  length (filter is_OnSuccess log) <= 1 /\
  length (filter is_OnError log) <= 1 /\
  (forall t, In (OnSuccess t) log -> In (Rendered (mkCard success t "" rent)) log) /\
  (forall m, In (OnError m) log -> state (snd (fst r)) = error /\ m <> "") /\
  (signer = false -> filter is_OnError log = []).

Arguments callbacks_in_order : simpl never.

(** X9: in one run of the confirm handler each callback is called at most
    once; [onSuccess] only with the id of a [success] render of the same
    run, [onError] only with a message that is not empty and only when the
    card ends in [error]; without a signer [onError] is not called. *)
Theorem callbacks_follow_the_outcome (props : Props) (w : World) (c : Card) :
  let run := handleSignWithEnergy props w c in
  let log := fst (fst run) in
  length (filter is_OnSuccess log) <= 1 /\
  length (filter is_OnError log) <= 1 /\
  (forall t, In (OnSuccess t) log ->
             In (Rendered (mkCard success t "" (rentEnergy c))) log) /\
  (forall m, In (OnError m) log -> state (snd (fst run)) = error /\ m <> "") /\
  (signTransaction w = None -> filter is_OnError log = []).
Proof.
  destruct c as [s t e rent]; destruct w as [sg net fr imp send fa].
  cbn [rentEnergy signTransaction].
  assert (H : callbacks_in_order rent (match sg with Some _ => true | None => false end)
                (handleSignWithEnergy props
                   {| signTransaction := sg; network_name := net;
                      fetch_rent_energy := fr; import_tronweb := imp;
                      sendRawTransaction := send; fetch_analyze_error := fa |}
                   (mkCard s t e rent))).
  { run_handler; unfold callbacks_in_order; cbn;
      (split; [lia|]); (split; [lia|]);
      (split; [intros t' H; log_cases; auto 20|]);
      (split; [intros m H; log_cases; (split; [reflexivity|apply errorMsg_nonempty])
              | intros H; (reflexivity || discriminate H)]). }
  destruct H as (H1 & H2 & H3 & H4 & H5).
  repeat (split; [assumption|]).
  intros ->. apply H5. reflexivity.
Qed.

(** X10: the reject button takes an idle card to [error] with the text
    [Transaction rejected by user], leaves [txid] alone, calls [onError]
    with [Rejected by user], and nothing the user does afterwards has any
    effect on the card. *)
Theorem reject_is_final (props : Props) (addr : option string) (c : Card)
    (actions : list (option string * Action)) :
  state c = idle ->
  let r := dispatch props addr c ClickReject in
  snd r = mkCard error (txid c) "Transaction rejected by user" (rentEnergy c) /\
  error_panel (render addr (snd r)) = Some "Transaction rejected by user" /\
  (forall f, onError props = Some f -> In (OnError "Rejected by user") (fst r)) /\
  session props c ((addr, ClickReject) :: actions) = fst r.
Proof.
  destruct c as [s t e rent]. cbn [state]. intros ->. cbv zeta.
  assert (Hc : snd (dispatch props addr (mkCard idle t e rent) ClickReject)
               = mkCard error t "Transaction rejected by user" rent).
  { cbn. run_handler; reflexivity. }
  split; [exact Hc|]. split; [rewrite Hc; reflexivity|]. split.
  - intros f Hf. cbn. rewrite Hf. run_handler; cbn; auto.
  - cbn [session]. rewrite session_settled by (rewrite Hc; discriminate).
    apply app_nil_r.
Qed.

Lemma reject_is_final_witness :
  let props := mounted_by_ChatMessage usdt_transfer in
  let r := dispatch props None initial ClickReject in
  snd r = mkCard error "" "Transaction rejected by user" true /\
  error_panel (render None (snd r)) = Some "Transaction rejected by user" /\
  (forall f, onError props = Some f -> In (OnError "Rejected by user") (fst r)) /\
  session props initial [(None, ClickReject); (Some "TAddress", ClickConfirm rental_down)]
  = fst r.
Proof.
  exact (reject_is_final (mounted_by_ChatMessage usdt_transfer) None initial
           [(Some "TAddress", ClickConfirm rental_down)] eq_refl).
Defined.

(** X11: [handleSign], the handler without the rental step, and the confirm
    handler with the rental unchecked leave the card in the same state with
    the same [txid], and call [onSuccess] alike and [onError] equally
    often. *)
Theorem handleSign_agrees_with_confirm (props : Props) (w : World) (c : Card) :
  rentEnergy c = false ->
  let r1 := handleSign props w c in
  let r2 := handleSignWithEnergy props w c in
  state (snd (fst r1)) = state (snd (fst r2)) /\
  txid (snd (fst r1)) = txid (snd (fst r2)) /\
  filter is_OnSuccess (fst (fst r1)) = filter is_OnSuccess (fst (fst r2)) /\
  length (filter is_OnError (fst (fst r1))) = length (filter is_OnError (fst (fst r2))).
Proof.
  destruct c as [s t e rent]. cbn [rentEnergy]. intros ->. cbv zeta.
  run_handler; auto.
Qed.

Lemma handleSign_agrees_with_confirm_witness :
  let props := mounted_by_ChatMessage usdt_transfer in
  let c := mkCard idle "" "" false in
  let r1 := handleSign props rental_down c in
  let r2 := handleSignWithEnergy props rental_down c in
  state (snd (fst r1)) = state (snd (fst r2)) /\
  txid (snd (fst r1)) = txid (snd (fst r2)) /\
  filter is_OnSuccess (fst (fst r1)) = filter is_OnSuccess (fst (fst r2)) /\
  length (filter is_OnError (fst (fst r1))) = length (filter is_OnError (fst (fst r2))).
Proof.
  exact (handleSign_agrees_with_confirm (mounted_by_ChatMessage usdt_transfer)
           rental_down (mkCard idle "" "" false) eq_refl).
Defined.

(** A render of an idle card, as a toggle of the rental box gives. *)
Definition idle_render (e : Event) : bool :=
  match e with
  | Rendered c => TxState_eqb (state c) idle
  | _ => false
  end.

Lemma confirm_leaves_idle (props : Props) (w : World) (c : Card) :
  state (snd (fst (handleSignWithEnergy props w c))) <> idle.
Proof.
  destruct (confirm_final props w c) as [[H|H] _]; rewrite H; discriminate.
Qed.

Lemma reject_leaves_idle (props : Props) (c : Card) :
  state (snd (fst (handleReject props c))) <> idle.
Proof. destruct c as [s t e rent]. run_handler; discriminate. Qed.

(** X12: whatever the user does to a card and in whatever order, what the
    card renders and calls is a run of toggles of the rental box, each
    rendering an idle card, followed by at most one run of one handler, the
    reject handler or the confirm handler: a card is signed and broadcast
    at most once. *)
Theorem card_runs_one_handler (props : Props)
    (actions : list (option string * Action)) :
  exists toggles run,
    session props initial actions = (toggles ++ run)%list /\
    forallb idle_render toggles = true /\
    (run = [] \/
     (exists c, state c = idle /\ run = fst (fst (handleReject props c))) \/
     (exists w c, state c = idle /\ run = fst (fst (handleSignWithEnergy props w c)))).
Proof.
  assert (H : forall c, state c = idle ->
    exists toggles run,
      session props c actions = (toggles ++ run)%list /\
      forallb idle_render toggles = true /\
      (run = [] \/
       (exists c', state c' = idle /\ run = fst (fst (handleReject props c'))) \/
       (exists w c', state c' = idle /\
                     run = fst (fst (handleSignWithEnergy props w c'))))).
  { induction actions as [|[addr a] rest IH]; intros c Hc.
    - exists [], []. cbn. auto.
    - cbn [session]. destruct a as [|w|b]; unfold dispatch.
      + destruct c as [s t e rent]; cbn in Hc; subst s. cbn [render reject_button state TxState_eqb].
        rewrite session_settled by apply reject_leaves_idle.
        exists [], (fst (fst (handleReject props (mkCard idle t e rent)))).
        rewrite app_nil_r. cbn [app forallb].
        split; [reflexivity|]. split; [reflexivity|].
        right; left. exists (mkCard idle t e rent). split; reflexivity.
      + destruct (confirm_button (render addr c)) as [[|]|].
        * destruct (IH c Hc) as (tg & run & E & Ht & Hr).
          exists tg, run. cbn [fst snd app]. auto.
        * rewrite session_settled by apply confirm_leaves_idle.
          exists [], (fst (fst (handleSignWithEnergy props w c))).
          rewrite app_nil_r. cbn [app forallb].
          split; [reflexivity|]. split; [reflexivity|].
          right; right. exists w, c. split; [exact Hc|reflexivity].
        * destruct (IH c Hc) as (tg & run & E & Ht & Hr).
          exists tg, run. cbn [fst snd app]. auto.
      + destruct c as [s t e rent]; cbn in Hc; subst s.
        cbn [render rental_checkbox state TxState_eqb rentEnergy setRentEnergy fst snd
             txid error_text].
        destruct (IH (mkCard idle t e b) eq_refl) as (tg & run & E & Ht & Hr).
        exists (Rendered (mkCard idle t e b) :: tg), run.
        rewrite E. cbn [app forallb idle_render state TxState_eqb andb]. auto. }
  exact (H initial eq_refl).
Qed.

End CardRuns.

(* ================================================================== *)
(** * The chat store, the chat route and a round of the chat *)
(* ================================================================== *)

Module ChatStore.
Import JsString.

(** [ChatMessage] of [types/chat.ts]; [transactions] is an optional field. *)
Inductive Role : Type := user | assistant.

Record ChatMessage : Type := {
  id : string;
  role : Role;
  content : str;
  timestamp : N;
  transactions : option (list TransactionCard.UnsignedTransaction)
}.

(** The data of the zustand store. *)
Record Store : Type := {
  messages : list ChatMessage;
  isStreaming : bool;
  walletAddress : option string
}.

Definition useChatStore : Store :=
  {| messages := []; isStreaming := false; walletAddress := None |}.

(** [set(...)] with a partial state: the fields it names are replaced. *)
Definition set_messages (l : list ChatMessage) (s : Store) : Store :=
  {| messages := l; isStreaming := isStreaming s; walletAddress := walletAddress s |}.

Definition addMessage (message : ChatMessage) (s : Store) : Store :=
  set_messages (messages s ++ [message]) s.

(** [{ ...msg, content }] *)
Definition with_content (msg : ChatMessage) (c : str) : ChatMessage :=
  {| id := id msg; role := role msg; content := c;
     timestamp := timestamp msg; transactions := transactions msg |}.

Definition updateMessage (i : string) (c : str) (s : Store) : Store :=
  set_messages
    (map (fun msg => if String.eqb (id msg) i then with_content msg c else msg)
         (messages s)) s.

Definition setStreaming (streaming : bool) (s : Store) : Store :=
  {| messages := messages s; isStreaming := streaming; walletAddress := walletAddress s |}.

Definition setWalletAddress (address : option string) (s : Store) : Store :=
  {| messages := messages s; isStreaming := isStreaming s; walletAddress := address |}.

Definition clearMessages (s : Store) : Store := set_messages [] s.

(* ------------------------------------------------------------------ *)

Lemma set_messages_same (s : Store) : set_messages (messages s) s = s.
Proof. now destruct s. Qed.

Lemma map_unknown_id (i : string) (f : ChatMessage -> ChatMessage) (l : list ChatMessage) :
  Forall (fun m => id m <> i) l ->
  map (fun msg => if String.eqb (id msg) i then f msg else msg) l = l.
Proof.
  induction 1 as [|m l Hm _ IH]; [reflexivity|].
  cbn [map]. rewrite IH. apply String.eqb_neq in Hm. now rewrite Hm.
Qed.

(** X13: [updateMessage] keeps the number and the order of the messages,
    their ids, roles, times and transactions, and the rest of the store; it
    sets the content of every message with the given id and of no other, and
    doing it twice is doing it once. *)
Theorem updateMessage_touches_content_only (i : string) (c : str) (s : Store) :
  let s' := updateMessage i c s in
  map id (messages s') = map id (messages s) /\
  map role (messages s') = map role (messages s) /\
  map timestamp (messages s') = map timestamp (messages s) /\
  map transactions (messages s') = map transactions (messages s) /\
  map content (messages s')
    = map (fun m => if String.eqb (id m) i then c else content m) (messages s) /\
  isStreaming s' = isStreaming s /\
  walletAddress s' = walletAddress s /\
  updateMessage i c s' = s'.
Proof.
  cbv zeta. unfold updateMessage, set_messages. cbn [messages isStreaming walletAddress].
  rewrite !map_map.
  repeat split.
  1-5: apply map_ext; intros m; destruct (String.eqb (id m) i); reflexivity.
  f_equal. apply map_ext. intros m.
  destruct (String.eqb (id m) i) eqn:E; cbn [id with_content]; rewrite ?E; reflexivity.
Qed.

(** X14: [updateMessage] with an id that no message has leaves the store
    as it is. *)
Theorem updateMessage_unknown_id (i : string) (c : str) (s : Store) :
  Forall (fun m => id m <> i) (messages s) ->
  updateMessage i c s = s.
Proof.
  intros H. unfold updateMessage. rewrite (map_unknown_id i _ _ H).
  apply set_messages_same.
Qed.

Lemma updateMessage_unknown_id_witness :
  let s := addMessage {| id := "m1"; role := user; content := lit "hello";
                         timestamp := 0; transactions := None |} useChatStore in
  updateMessage "m2" (lit "changed") s = s.
Proof.
  cbv zeta. apply updateMessage_unknown_id.
  constructor; [cbn; discriminate|constructor].
Defined.

End ChatStore.

(* ================================================================== *)
(** * The chat route *)
(* ================================================================== *)

Module ChatRoute.
Import JsString.
Import TransactionCard (outcome, Resolved, Rejected, Exn, Error, or_else).

(** What [reader.read()] gives, call after call, on a stream that ends: the
    chunks, and then either [done] or a rejection.  A stream that never
    ends is no value of this type; the loops that read a stream have no
    timeout and wait for it. *)
Inductive Ending : Type := done | failed (e : Exn).

Record Body : Type := { chunks : list str; ending : Ending }.

(** The fields of the request body that the route reads; [message] is
    [None] when the body has no such field. *)
Record ChatRequest : Type := {
  message : option str;
  walletAddress : option string;
  network : option string
}.

(** The body posted to the MCP server. *)
Record McpRequest : Type := {
  mcp_message : str;
  wallet_address : option string
}.

(** The answer of the MCP server: [ok], [statusText] and [body]. *)
Record McpResponse : Type := {
  ok : bool;
  statusText : string;
  body : option Body
}.

(** What the route returns: a JSON error with its status, or the stream,
    which is answered with status 200 and always closed. *)
Inductive NextResponse : Type :=
| json (error : string) (status : nat)
| stream (enqueued : list str).

(** [`Error: ${error.message || 'Unknown error'}`] *)
Definition errorMessage (e : Exn) : str :=
  lit "Error: " ++ lit (or_else (TransactionCard.message e) "Unknown error").

(** The [start] function of the stream: what it enqueues before it closes
    the stream. *)
Definition start (mcp : outcome McpResponse) : list str :=
  match mcp with
  | Rejected e => [errorMessage e]
  | Resolved response =>
      if negb (ok response)
      then [errorMessage (Error ("MCP server error: " ++ statusText response))]
      else match body response with
           | None => [errorMessage (Error "No reader available")]
           | Some b =>
               chunks b ++
               match ending b with
               | done => []
               | failed e => [errorMessage e]
               end
           end
  end.

(** [POST]; [req] is the outcome of [await req.json()], [fetch] the MCP
    server. *)
Definition POST (req : outcome ChatRequest)
    (fetch : McpRequest -> outcome McpResponse) : NextResponse :=
  match req with
  | Rejected e => json (or_else (TransactionCard.message e) "Internal server error") 500
  | Resolved r =>
      match message r with
      | None | Some [] => json "Message is required" 400
      | Some m =>
          stream (start (fetch {| mcp_message := m;
                                  wallet_address := walletAddress r |}))
      end
  end.

(* ------------------------------------------------------------------ *)

(** The chunks the MCP server gave before its stream ended, and whether it
    ended with [done]. *)
Definition forwarded (mcp : outcome McpResponse) : list str :=
  match mcp with
  | Resolved {| ok := true; body := Some b |} => chunks b
  | _ => []
  end.

Definition completed (mcp : outcome McpResponse) : bool :=
  match mcp with
  | Resolved {| ok := true; body := Some {| ending := done |} |} => true
  | _ => false
  end.

Lemma errorMessage_shape (e : Exn) :
  startsWith (lit "Error: ") (errorMessage e) = true /\ 7 < length (errorMessage e).
Proof.
  unfold errorMessage. split; [apply startsWith_app|].
  rewrite length_app. change (length (lit "Error: ")) with 7.
  assert (H : or_else (TransactionCard.message e) "Unknown error" <> ""%string)
    by apply CardRuns.errorMsg_nonempty.
  destruct (or_else (TransactionCard.message e) "Unknown error"); [congruence|].
  cbn. lia.
Qed.

Lemma start_shape (mcp : outcome McpResponse) :
  exists tail,
    start mcp = forwarded mcp ++ tail /\
    if completed mcp then tail = []
    else exists e, tail = [errorMessage e].
Proof.
  destruct mcp as [[[|] st [[cs [|e]]|]]|e];
    cbn [start forwarded completed negb ok body chunks ending];
    eexists; (split; [reflexivity|]); eauto.
Qed.

(** X15: the route answers with JSON only for a body it cannot read (500)
    or a missing or empty message (400); otherwise it streams: the chunks of
    the MCP server in order, and, exactly when the server could not be
    reached, was not ok, had no body or broke off, one more chunk, which
    starts with [Error: ] and goes on after it. *)
Theorem route_streams_chunks_then_one_error (req : outcome ChatRequest)
    (fetch : McpRequest -> outcome McpResponse) :
  match POST req fetch with
  | json error status =>
      (status = 400 /\ error = "Message is required"%string /\
       exists r, req = Resolved r /\ (message r = None \/ message r = Some [])) \/
      (status = 500 /\ exists e, req = Rejected e)
  | stream enqueued =>
      exists r m,
        req = Resolved r /\ message r = Some m /\ m <> [] /\
        let mcp := fetch {| mcp_message := m; wallet_address := walletAddress r |} in
        exists tail,
          enqueued = forwarded mcp ++ tail /\
          if completed mcp then tail = []
          else exists c, tail = [c] /\
                         startsWith (lit "Error: ") c = true /\ 7 < length c
  end.
Proof.
  destruct req as [r|e]; unfold POST; [|right; eauto].
  destruct (message r) as [[|x m]|] eqn:Hm; [left; eauto 6| |left; eauto 6].
  exists r, (x :: m). split; [reflexivity|]. split; [exact Hm|].
  split; [discriminate|]. cbv zeta.
  destruct (start_shape (fetch {| mcp_message := x :: m;
                                  wallet_address := walletAddress r |}))
    as (tail & H1 & H2).
  exists tail. split; [exact H1|].
  destruct (completed _); [exact H2|].
  destruct H2 as [e ->]. exists (errorMessage e). split; [reflexivity|].
  apply errorMessage_shape.
Qed.

End ChatRoute.

(* ================================================================== *)
(** * Sending a message *)
(* ================================================================== *)

Module HandleSend.
Import JsString StreamParser ChatStore.
Import TransactionCard (outcome, Resolved, Rejected, Exn, Error, UnsignedTransaction).
Import ChatRoute (Ending, done, failed, Body, chunks, ending, ChatRequest).

(** The answer of [fetch('/api/chat')] as the handler reads it:
    [response.ok] and [response.body]. *)
Record FetchResponse : Type := {
  ok : bool;
  body : option Body
}.

Definition apology : str := lit "抱歉，发生了错误。请稍后重试。".

Section Handler.

Variable JSON_parse : str -> option UnsignedTransaction.

(** The [transaction] branch of the loop: the transaction is appended to
    the transactions of the message with the given id, when there is one. *)
Definition add_transaction (i : string) (tx : UnsignedTransaction) (s : Store) : Store :=
  match find (fun m => String.eqb (id m) i) (messages s) with
  | Some _ =>
      set_messages
        (map (fun m =>
                if String.eqb (id m) i
                then {| id := id m; role := role m; content := content m;
                        timestamp := timestamp m;
                        transactions :=
                          Some (match transactions m with
                                | Some l => l
                                | None => []
                                end ++ [tx]) |}
                else m)
             (messages s)) s
  | None => s
  end.

(** [for (const item of parsed)] *)
Fixpoint for_items (assistantMessageId : string)
    (parsed : list (ParsedChunk UnsignedTransaction))
    (accumulatedText : str) (s : Store) : str * Store :=
  match parsed with
  | [] => (accumulatedText, s)
  | text c :: rest =>
      let accumulatedText' := accumulatedText ++ c in
      for_items assistantMessageId rest accumulatedText'
        (updateMessage assistantMessageId accumulatedText' s)
  | transaction tx :: rest =>
      for_items assistantMessageId rest accumulatedText
        (add_transaction assistantMessageId tx s)
  end.

(** The [while (true)] loop over the chunks that are read before the
    stream is done or fails. *)
Fixpoint read_loop (assistantMessageId : string) (cs : list str)
    (p : parser) (accumulatedText : str) (s : Store) : option (str * Store) :=
  match cs with
  | [] => Some (accumulatedText, s)
  | chunk :: rest =>
      match parse JSON_parse p chunk with
      | Some (parsed, p') =>
          let r := for_items assistantMessageId parsed accumulatedText s in
          read_loop assistantMessageId rest p' (fst r) (snd r)
      | None => None
      end
  end.

(** The [try] block: the store it leaves, and whether it threw. *)
Definition try_block (assistantMessageId : string)
    (response : outcome FetchResponse) (s : Store) : option (outcome unit * Store) :=
  match response with
  | Rejected e => Some (Rejected e, s)
  | Resolved r =>
      if negb (ok r) then Some (Rejected (Error "Failed to fetch"), s)
      else match body r with
           | None => Some (Rejected (Error "No reader available"), s)
           | Some b =>
               match read_loop assistantMessageId (chunks b) reset [] s with
               | Some (_, s') =>
                   Some (match ending b with
                         | done => Resolved tt
                         | failed e => Rejected e
                         end, s')
               | None => None
               end
           end
  end.

(** [handleSend].  [input] is [input.trim()], the two ids are what
    [nanoid()] gives and the two times what [new Date()] gives;
    [setInput('')] empties the input box and touches nothing of the
    store. *)
Definition handleSend (input : str) (userId assistantMessageId : string)
    (now now' : N) (network : string)
    (fetch : ChatRequest -> outcome FetchResponse) (s : Store) : option Store :=
  if (length input =? 0) || isStreaming s then Some s
  else
    let s := addMessage {| id := userId; role := user; content := input;
                           timestamp := now; transactions := None |} s in
    let s := setStreaming true s in
    let s := addMessage {| id := assistantMessageId; role := assistant; content := [];
                           timestamp := now'; transactions := None |} s in
    match try_block assistantMessageId
            (fetch {| ChatRoute.message := Some input;
                      ChatRoute.walletAddress := walletAddress s;
                      ChatRoute.network := Some network |}) s with
    | Some (Resolved _, s') => Some (setStreaming false s')
    | Some (Rejected _, s') =>
        Some (setStreaming false (updateMessage assistantMessageId apology s'))
    | None => None
    end.

(* ------------------------------------------------------------------ *)
(** ** Running the loop *)

(** [transactions] after some more transactions were appended. *)
Definition append_transactions (t : option (list UnsignedTransaction))
    (l : list UnsignedTransaction) : option (list UnsignedTransaction) :=
  match l with
  | [] => t
  | _ => Some (match t with Some l0 => l0 | None => [] end ++ l)
  end.

(** The assistant message that [handleSend] adds and then fills. *)
Definition reply (i : string) (now' : N) (c : str)
    (t : option (list UnsignedTransaction)) : ChatMessage :=
  {| id := i; role := assistant; content := c; timestamp := now'; transactions := t |}.

Lemma append_transactions_app (t : option (list UnsignedTransaction))
    (l1 l2 : list UnsignedTransaction) :
  append_transactions (append_transactions t l1) l2 = append_transactions t (l1 ++ l2).
Proof.
  destruct l1 as [|x l1]; [reflexivity|].
  destruct l2 as [|y l2]; cbn [append_transactions app].
  - now rewrite app_nil_r.
  - destruct (l1 ++ y :: l2) eqn:E; [destruct l1; discriminate|].
    rewrite <- E. cbn [app]. now rewrite <- app_assoc.
Qed.

Lemma all_text_app (l1 l2 : list (ParsedChunk UnsignedTransaction)) :
  all_text (l1 ++ l2) = all_text l1 ++ all_text l2.
Proof.
  induction l1 as [|[c|tx] l1 IH]; cbn; rewrite ?IH, ?app_assoc; reflexivity.
Qed.

Lemma all_transactions_app (l1 l2 : list (ParsedChunk UnsignedTransaction)) :
  all_transactions (l1 ++ l2) = all_transactions l1 ++ all_transactions l2.
Proof.
  induction l1 as [|[c|tx] l1 IH]; cbn; rewrite ?IH; reflexivity.
Qed.

Lemma find_last (i : string) (pre : list ChatMessage) (a : ChatMessage) :
  id a = i ->
  exists m, find (fun m => String.eqb (id m) i) (pre ++ [a]) = Some m.
Proof.
  intros Ha. induction pre as [|x pre IH]; cbn.
  - rewrite Ha, String.eqb_refl. eauto.
  - destruct (String.eqb (id x) i); eauto.
Qed.

Lemma updateMessage_reply (i : string) (now' : N) (c c' : str)
    (t : option (list UnsignedTransaction)) (pre : list ChatMessage) (st : bool)
    (w : option string) :
  Forall (fun m => id m <> i) pre ->
  updateMessage i c'
    {| messages := pre ++ [reply i now' c t]; isStreaming := st; walletAddress := w |}
  = {| messages := pre ++ [reply i now' c' t]; isStreaming := st; walletAddress := w |}.
Proof.
  intros H. unfold updateMessage, set_messages. cbn [messages isStreaming walletAddress].
  rewrite map_app, (map_unknown_id i _ _ H). cbn. now rewrite String.eqb_refl.
Qed.

Lemma add_transaction_reply (i : string) (now' : N) (c : str)
    (t : option (list UnsignedTransaction)) (tx : UnsignedTransaction)
    (pre : list ChatMessage) (st : bool) (w : option string) :
  Forall (fun m => id m <> i) pre ->
  add_transaction i tx
    {| messages := pre ++ [reply i now' c t]; isStreaming := st; walletAddress := w |}
  = {| messages := pre ++ [reply i now' c (append_transactions t [tx])];
       isStreaming := st; walletAddress := w |}.
Proof.
  intros H. unfold add_transaction, set_messages. cbn [messages isStreaming walletAddress].
  destruct (find_last i pre (reply i now' c t) eq_refl) as [m ->].
  rewrite map_app, (map_unknown_id i _ _ H). cbn. now rewrite String.eqb_refl.
Qed.

Lemma for_items_reply (i : string) (now' : N) (pre : list ChatMessage) (st : bool)
    (w : option string) (parsed : list (ParsedChunk UnsignedTransaction)) :
  Forall (fun m => id m <> i) pre ->
  forall acc t,
  for_items i parsed acc
    {| messages := pre ++ [reply i now' acc t]; isStreaming := st; walletAddress := w |}
  = (acc ++ all_text parsed,
     {| messages := pre ++ [reply i now' (acc ++ all_text parsed)
                              (append_transactions t (all_transactions parsed))];
        isStreaming := st; walletAddress := w |}).
Proof.
  intros H. induction parsed as [|[c|tx] rest IH]; intros acc t.
  - cbn. now rewrite app_nil_r.
  - cbn [for_items all_text all_transactions].
    rewrite (updateMessage_reply i now' acc (acc ++ c) t pre st w H), IH.
    now rewrite <- app_assoc.
  - cbn [for_items all_text all_transactions].
    rewrite (add_transaction_reply i now' acc t tx pre st w H), IH.
    rewrite append_transactions_app. reflexivity.
Qed.

Lemma read_loop_reply (i : string) (now' : N) (pre : list ChatMessage) (st : bool)
    (w : option string) (cs : list str) :
  Forall (fun m => id m <> i) pre ->
  forall p acc t,
  read_loop i cs p acc
    {| messages := pre ++ [reply i now' acc t]; isStreaming := st; walletAddress := w |}
  = let items := fst (feed_all JSON_parse p cs) in
    Some (acc ++ all_text items,
          {| messages := pre ++ [reply i now' (acc ++ all_text items)
                                   (append_transactions t (all_transactions items))];
             isStreaming := st; walletAddress := w |}).
Proof.
  intros H. induction cs as [|c rest IH]; intros p acc t; cbv zeta.
  - cbn. now rewrite app_nil_r.
  - cbn [read_loop feed_all fst snd]. rewrite parse_feed.
    destruct (feed JSON_parse p c) as [parsed p'] eqn:E. cbn [fst snd].
    rewrite (for_items_reply i now' pre st w parsed H). cbn [fst snd].
    rewrite IH. cbv zeta.
    rewrite all_text_app, all_transactions_app, append_transactions_app, app_assoc.
    reflexivity.
Qed.

(** The store a refused or a completed [handleSend] leaves, when the id of
    the reply is new. *)
Lemma handleSend_run (input : str) (userId assistantMessageId : string)
    (now now' : N) (network : string)
    (fetch : ChatRequest -> outcome FetchResponse) (s : Store)
    (cs : list str) (en : Ending) :
  input <> [] -> isStreaming s = false ->
  userId <> assistantMessageId ->
  Forall (fun m => id m <> assistantMessageId) (messages s) ->
  fetch {| ChatRoute.message := Some input;
           ChatRoute.walletAddress := walletAddress s;
           ChatRoute.network := Some network |}
    = Resolved {| ok := true; body := Some {| chunks := cs; ending := en |} |} ->
  let items := fst (feed_all JSON_parse reset cs) in
  handleSend input userId assistantMessageId now now' network fetch s
  = Some {| messages :=
              messages s ++
              [ {| id := userId; role := user; content := input;
                   timestamp := now; transactions := None |};
                reply assistantMessageId now'
                  (match en with done => all_text items | failed _ => apology end)
                  (append_transactions None (all_transactions items)) ];
            isStreaming := false;
            walletAddress := walletAddress s |}.
Proof.
  intros Hin Hst Hid Hfresh Hf. cbv zeta. unfold handleSend.
  destruct input as [|x input]; [congruence|].
  rewrite Hst. cbn [length Nat.eqb orb].
  cbn [addMessage setStreaming set_messages messages isStreaming walletAddress].
  rewrite Hf. unfold try_block. cbn [ok body negb chunks ending].
  set (pre := messages s ++ [ {| id := userId; role := user; content := x :: input;
                                 timestamp := now; transactions := None |} ]).
  assert (Hpre : Forall (fun m => id m <> assistantMessageId) pre).
  { apply Forall_app. split; [exact Hfresh|]. constructor; [exact Hid|constructor]. }
  change (addMessage _ (setStreaming true (addMessage _ s)))
    with {| messages := pre ++ [reply assistantMessageId now' [] None];
            isStreaming := true; walletAddress := walletAddress s |}.
  rewrite (read_loop_reply assistantMessageId now' pre true (walletAddress s) cs Hpre).
  cbv zeta. cbn [app].
  destruct en as [|e].
  - cbn [setStreaming messages walletAddress]. subst pre. now rewrite <- app_assoc.
  - rewrite (updateMessage_reply assistantMessageId now' _ apology _ pre true
               (walletAddress s) Hpre).
    cbn [setStreaming messages walletAddress]. subst pre. now rewrite <- app_assoc.
Qed.

(** The same loop on any store: it changes the messages in place. *)
Lemma add_transaction_frame (i : string) (tx : UnsignedTransaction) (s : Store) :
  map id (messages (add_transaction i tx s)) = map id (messages s) /\
  isStreaming (add_transaction i tx s) = isStreaming s /\
  walletAddress (add_transaction i tx s) = walletAddress s.
Proof.
  unfold add_transaction.
  destruct (find _ (messages s)); [|auto].
  cbn. split; [|auto]. rewrite map_map. apply map_ext.
  intros m. now destruct (String.eqb (id m) i).
Qed.

Lemma updateMessage_frame (i : string) (c : str) (s : Store) :
  map id (messages (updateMessage i c s)) = map id (messages s) /\
  isStreaming (updateMessage i c s) = isStreaming s /\
  walletAddress (updateMessage i c s) = walletAddress s.
Proof.
  cbn. split; [|auto]. rewrite map_map. apply map_ext.
  intros m. now destruct (String.eqb (id m) i).
Qed.

Lemma for_items_frame (i : string) (parsed : list (ParsedChunk UnsignedTransaction)) :
  forall acc s,
  let s' := snd (for_items i parsed acc s) in
  map id (messages s') = map id (messages s) /\
  isStreaming s' = isStreaming s /\
  walletAddress s' = walletAddress s.
Proof.
  induction parsed as [|[c|tx] rest IH]; intros acc s; cbv zeta; cbn [for_items snd].
  - auto.
  - destruct (IH (acc ++ c) (updateMessage i (acc ++ c) s)) as (H1 & H2 & H3).
    destruct (updateMessage_frame i (acc ++ c) s) as (G1 & G2 & G3).
    repeat split; congruence.
  - destruct (IH acc (add_transaction i tx s)) as (H1 & H2 & H3).
    destruct (add_transaction_frame i tx s) as (G1 & G2 & G3).
    repeat split; congruence.
Qed.

Lemma read_loop_frame (i : string) (cs : list str) :
  forall p acc s, exists acc' s',
  read_loop i cs p acc s = Some (acc', s') /\
  map id (messages s') = map id (messages s) /\
  isStreaming s' = isStreaming s /\
  walletAddress s' = walletAddress s.
Proof.
  induction cs as [|c rest IH]; intros p acc s; cbn [read_loop].
  - eauto 6.
  - rewrite parse_feed. destruct (feed JSON_parse p c) as [parsed p'].
    destruct (for_items_frame i parsed acc s) as (G1 & G2 & G3).
    destruct (IH p' (fst (for_items i parsed acc s)) (snd (for_items i parsed acc s)))
      as (acc' & s' & E & H1 & H2 & H3).
    exists acc', s'. rewrite E. repeat split; congruence.
Qed.

End Handler.

(** The user message that [handleSend] adds. *)
Definition question (i : string) (now : N) (input : str) : ChatMessage :=
  {| id := i; role := user; content := input; timestamp := now; transactions := None |}.

(** The body that [handleSend] posts. *)
Definition request (input : str) (network : string) (s : Store) : ChatRequest :=
  {| ChatRoute.message := Some input;
     ChatRoute.walletAddress := walletAddress s;
     ChatRoute.network := Some network |}.

(** X16: on a response whose stream ends, by [done] or by a failure after
    finitely many chunks, [handleSend] returns; either it changes nothing
    (the input is blank or a reply is streaming), or it ends with
    [isStreaming] false and exactly the two new messages appended, however
    the request was answered and however the stream ended; the wallet
    address is never changed.  The loop that reads the stream has no
    timeout: a stream that never ends, which is no value of [Body], is
    outside this statement, and on it the loop does not return and
    [isStreaming] stays true. *)
Theorem handleSend_stops_streaming
    (JSON_parse : str -> option UnsignedTransaction)
    (input : str) (userId assistantMessageId : string) (now now' : N)
    (network : string) (fetch : ChatRequest -> outcome FetchResponse) (s : Store) :
  exists s',
    handleSend JSON_parse input userId assistantMessageId now now' network fetch s
      = Some s' /\
    walletAddress s' = walletAddress s /\
    (s' = s \/
     isStreaming s' = false /\
     map id (messages s') = map id (messages s) ++ [userId; assistantMessageId]).
Proof.
  unfold handleSend.
  destruct ((length input =? 0) || isStreaming s); [eauto|].
  set (s3 := addMessage _ (setStreaming true (addMessage _ s))).
  assert (H3 : map id (messages s3) = map id (messages s) ++ [userId; assistantMessageId]).
  { subst s3. cbn. now rewrite !map_app, <- app_assoc. }
  assert (W3 : walletAddress s3 = walletAddress s) by reflexivity.
  change (walletAddress (addMessage _ (setStreaming true (addMessage _ s))))
    with (walletAddress s).
  unfold try_block.
  destruct (fetch _) as [r|e].
  - destruct (negb (ok r)).
    + eexists. split; [reflexivity|].
      destruct (updateMessage_frame assistantMessageId apology s3) as (G1 & G2 & G3).
      cbn [setStreaming walletAddress isStreaming messages].
      split; [congruence|]. right. split; [reflexivity|congruence].
    + destruct (body r) as [b|].
      * destruct (read_loop_frame JSON_parse assistantMessageId (chunks b) reset [] s3)
          as (acc' & s' & E & H1 & H2 & H4).
        rewrite E. destruct (ending b).
        -- eexists. split; [reflexivity|].
           cbn [setStreaming walletAddress isStreaming messages].
           split; [congruence|]. right. split; [reflexivity|congruence].
        -- eexists. split; [reflexivity|].
           destruct (updateMessage_frame assistantMessageId apology s') as (G1 & G2 & G3).
           cbn [setStreaming walletAddress isStreaming messages].
           split; [congruence|]. right. split; [reflexivity|congruence].
      * eexists. split; [reflexivity|].
        destruct (updateMessage_frame assistantMessageId apology s3) as (G1 & G2 & G3).
        cbn [setStreaming walletAddress isStreaming messages].
        split; [congruence|]. right. split; [reflexivity|congruence].
  - eexists. split; [reflexivity|].
    destruct (updateMessage_frame assistantMessageId apology s3) as (G1 & G2 & G3).
    cbn [setStreaming walletAddress isStreaming messages].
    split; [congruence|]. right. split; [reflexivity|congruence].
Qed.

(** X17: when the stream is read to its end and the id of the reply is new,
    the store ends with the earlier messages untouched, then the question,
    then the reply, whose content is all the text the parser returned and
    whose transactions are all the transactions it returned, in order. *)
Theorem handleSend_shows_the_reply
    (JSON_parse : str -> option UnsignedTransaction)
    (input : str) (userId assistantMessageId : string) (now now' : N)
    (network : string) (fetch : ChatRequest -> outcome FetchResponse) (s : Store)
    (cs : list str) :
  input <> [] -> isStreaming s = false ->
  userId <> assistantMessageId ->
  Forall (fun m => id m <> assistantMessageId) (messages s) ->
  fetch (request input network s)
    = Resolved {| ok := true; body := Some {| chunks := cs; ending := done |} |} ->
  exists items p',
    parse_chunks JSON_parse reset cs = Some (items, p') /\
    handleSend JSON_parse input userId assistantMessageId now now' network fetch s
    = Some {| messages :=
                messages s ++
                [ question userId now input;
                  reply assistantMessageId now' (all_text items)
                    (append_transactions None (all_transactions items)) ];
              isStreaming := false;
              walletAddress := walletAddress s |}.
Proof.
  intros Hin Hst Hid Hfresh Hf.
  exists (fst (feed_all JSON_parse reset cs)), (snd (feed_all JSON_parse reset cs)).
  split; [rewrite parse_chunks_feed_all; now destruct (feed_all JSON_parse reset cs)|].
  exact (handleSend_run JSON_parse input userId assistantMessageId now now' network
           fetch s cs done Hin Hst Hid Hfresh Hf).
Qed.

(** X18: when reading the stream fails after some chunks, the content of
    the reply is replaced by the apology, but the transactions received
    before the failure stay in the message. *)
Theorem broken_stream_keeps_the_cards
    (JSON_parse : str -> option UnsignedTransaction)
    (input : str) (userId assistantMessageId : string) (now now' : N)
    (network : string) (fetch : ChatRequest -> outcome FetchResponse) (s : Store)
    (cs : list str) (e : Exn) :
  input <> [] -> isStreaming s = false ->
  userId <> assistantMessageId ->
  Forall (fun m => id m <> assistantMessageId) (messages s) ->
  fetch (request input network s)
    = Resolved {| ok := true; body := Some {| chunks := cs; ending := failed e |} |} ->
  exists items p',
    parse_chunks JSON_parse reset cs = Some (items, p') /\
    handleSend JSON_parse input userId assistantMessageId now now' network fetch s
    = Some {| messages :=
                messages s ++
                [ question userId now input;
                  reply assistantMessageId now' apology
                    (append_transactions None (all_transactions items)) ];
              isStreaming := false;
              walletAddress := walletAddress s |}.
Proof.
  intros Hin Hst Hid Hfresh Hf.
  exists (fst (feed_all JSON_parse reset cs)), (snd (feed_all JSON_parse reset cs)).
  split; [rewrite parse_chunks_feed_all; now destruct (feed_all JSON_parse reset cs)|].
  exact (handleSend_run JSON_parse input userId assistantMessageId now now' network
           fetch s cs (failed e) Hin Hst Hid Hfresh Hf).
Qed.

(* ------------------------------------------------------------------ *)
(** ** A round through the route *)

Import ChatRoute (NextResponse, json, stream, POST, start, errorMessage, McpRequest,
                  McpResponse).

(** What [fetch('/api/chat')] resolves to in the browser when the route
    answers [r]: a JSON answer has status 400 or 500, so [response.ok] is
    false; a stream has status 200, and its chunks are read as they were
    enqueued, up to the close. *)
Definition reads (r : NextResponse) (f : FetchResponse) : Prop :=
  match r with
  | json _ _ => ok f = false
  | stream enqueued =>
      f = {| ok := true; body := Some {| chunks := enqueued; ending := done |} |}
  end.

Lemma feed_all_app (JSON_parse : str -> option UnsignedTransaction)
    (cs1 cs2 : list str) :
  forall p,
  feed_all JSON_parse p (cs1 ++ cs2)
  = (fst (feed_all JSON_parse p cs1)
       ++ fst (feed_all JSON_parse (snd (feed_all JSON_parse p cs1)) cs2),
     snd (feed_all JSON_parse (snd (feed_all JSON_parse p cs1)) cs2)).
Proof.
  induction cs1 as [|c cs1 IH]; intros p.
  - cbn. now destruct (feed_all JSON_parse p cs2).
  - cbn [app feed_all fst snd]. rewrite IH. cbn [fst snd]. now rewrite app_assoc.
Qed.

(** The request that [handleSend] posts has a message, so the route answers
    it with the stream. *)
Lemma POST_request (input : str) (network : string) (s : Store)
    (mcp : McpRequest -> outcome McpResponse) :
  input <> [] ->
  POST (Resolved (request input network s)) mcp
  = stream (start (mcp {| ChatRoute.mcp_message := input;
                          ChatRoute.wallet_address := walletAddress s |})).
Proof. destruct input; [congruence|reflexivity]. Qed.

Lemma chat_round (JSON_parse : str -> option UnsignedTransaction)
    (input : str) (userId assistantMessageId : string) (now now' : N)
    (network : string) (fetch : ChatRequest -> outcome FetchResponse) (s : Store)
    (mcp : McpRequest -> outcome McpResponse) (f : FetchResponse) :
  input <> [] -> isStreaming s = false ->
  userId <> assistantMessageId ->
  Forall (fun m => id m <> assistantMessageId) (messages s) ->
  fetch (request input network s) = Resolved f ->
  reads (POST (Resolved (request input network s)) mcp) f ->
  let items :=
    fst (feed_all JSON_parse reset
           (start (mcp {| ChatRoute.mcp_message := input;
                          ChatRoute.wallet_address := walletAddress s |}))) in
  handleSend JSON_parse input userId assistantMessageId now now' network fetch s
  = Some {| messages :=
              messages s ++
              [ question userId now input;
                reply assistantMessageId now' (all_text items)
                  (append_transactions None (all_transactions items)) ];
            isStreaming := false;
            walletAddress := walletAddress s |}.
Proof.
  intros Hin Hst Hid Hfresh Hf Hr.
  rewrite (POST_request input network s mcp Hin) in Hr. cbn [reads] in Hr. subst f.
  exact (handleSend_run JSON_parse input userId assistantMessageId now now' network
           fetch s _ done Hin Hst Hid Hfresh Hf).
Qed.

Lemma feed_all_from_reset (JSON_parse : str -> option UnsignedTransaction)
    (cs : list str) :
  let p := snd (feed_all JSON_parse reset cs) in
  p = mk [] (inJsonBlock p) (jsonBuffer p) /\
  (inJsonBlock p = false -> p = reset).
Proof.
  cbv zeta.
  destruct (ParserStates.feed_all_between_calls _ JSON_parse cs reset) as [Hb Hj];
    [split; reflexivity|].
  destruct (snd (feed_all JSON_parse reset cs)) as [b inJ jb].
  cbn [buffer inJsonBlock jsonBuffer] in *. subst b. split; [reflexivity|].
  intros ->. now rewrite Hj.
Qed.

(** X19: a round through the route, its chunks read as they were enqueued:
    when the MCP server fails while the parser is outside a block, the reply
    ends with the [Error: ...] text of the route (not with the apology),
    after the text that came before. *)
Theorem mcp_failure_outside_block_is_shown
    (JSON_parse : str -> option UnsignedTransaction)
    (input : str) (userId assistantMessageId : string) (now now' : N)
    (network : string) (fetch : ChatRequest -> outcome FetchResponse) (s : Store)
    (mcp : McpRequest -> outcome McpResponse) (f : FetchResponse)
    (cs : list str) (e : Exn)
    (items : list (ParsedChunk UnsignedTransaction)) (p' : parser) :
  input <> [] -> isStreaming s = false ->
  userId <> assistantMessageId ->
  Forall (fun m => id m <> assistantMessageId) (messages s) ->
  fetch (request input network s) = Resolved f ->
  reads (POST (Resolved (request input network s)) mcp) f ->
  start (mcp {| ChatRoute.mcp_message := input;
                ChatRoute.wallet_address := walletAddress s |})
    = cs ++ [errorMessage e] ->
  parse_chunks JSON_parse reset cs = Some (items, p') ->
  inJsonBlock p' = false ->
  indexOf START_MARKER (errorMessage e) = None ->
  handleSend JSON_parse input userId assistantMessageId now now' network fetch s
  = Some {| messages :=
              messages s ++
              [ question userId now input;
                reply assistantMessageId now' (all_text items ++ errorMessage e)
                  (append_transactions None (all_transactions items)) ];
            isStreaming := false;
            walletAddress := walletAddress s |}.
Proof.
  intros Hin Hst Hid Hfresh Hf Hr Hs Hp Hout He.
  rewrite parse_chunks_feed_all in Hp. injection Hp as Hp.
  rewrite (chat_round JSON_parse input userId assistantMessageId now now' network
             fetch s mcp f Hin Hst Hid Hfresh Hf Hr).
  cbv zeta. rewrite Hs, feed_all_app.
  destruct (feed_all_from_reset JSON_parse cs) as [_ Hreset].
  rewrite Hp in *. cbn [fst snd] in *. rewrite (Hreset Hout).
  cbn [feed_all fst snd]. unfold reset.
  rewrite (ParserStates.feed_text_chunk _ JSON_parse [] (errorMessage e) He).
  cbn [fst snd]. rewrite app_nil_r, all_text_app, all_transactions_app.
  assert (Ha : all_text (@text_before UnsignedTransaction (errorMessage e))
               = errorMessage e) by (destruct (errorMessage e); cbn; now rewrite ?app_nil_r).
  assert (Ht : all_transactions (@text_before UnsignedTransaction (errorMessage e)) = [])
    by (destruct (errorMessage e); reflexivity).
  rewrite Ha, Ht, app_nil_r. reflexivity.
Qed.

(** X20: a round through the route, its chunks read as they were enqueued:
    when the MCP server fails while a transaction block is open, neither the
    [Error: ...] text of the route nor the apology reaches the reply; its
    content is the text from before the block. *)
Theorem mcp_failure_inside_block_is_hidden
    (JSON_parse : str -> option UnsignedTransaction)
    (input : str) (userId assistantMessageId : string) (now now' : N)
    (network : string) (fetch : ChatRequest -> outcome FetchResponse) (s : Store)
    (mcp : McpRequest -> outcome McpResponse) (f : FetchResponse)
    (cs : list str) (e : Exn)
    (items : list (ParsedChunk UnsignedTransaction)) (p' : parser) :
  input <> [] -> isStreaming s = false ->
  userId <> assistantMessageId ->
  Forall (fun m => id m <> assistantMessageId) (messages s) ->
  fetch (request input network s) = Resolved f ->
  reads (POST (Resolved (request input network s)) mcp) f ->
  start (mcp {| ChatRoute.mcp_message := input;
                ChatRoute.wallet_address := walletAddress s |})
    = cs ++ [errorMessage e] ->
  parse_chunks JSON_parse reset cs = Some (items, p') ->
  inJsonBlock p' = true ->
  indexOf END_MARKER (errorMessage e) = None ->
  handleSend JSON_parse input userId assistantMessageId now now' network fetch s
  = Some {| messages :=
              messages s ++
              [ question userId now input;
                reply assistantMessageId now' (all_text items)
                  (append_transactions None (all_transactions items)) ];
            isStreaming := false;
            walletAddress := walletAddress s |}.
Proof.
  intros Hin Hst Hid Hfresh Hf Hr Hs Hp Hopen He.
  rewrite parse_chunks_feed_all in Hp. injection Hp as Hp.
  rewrite (chat_round JSON_parse input userId assistantMessageId now now' network
             fetch s mcp f Hin Hst Hid Hfresh Hf Hr).
  cbv zeta. rewrite Hs, feed_all_app.
  destruct (feed_all_from_reset JSON_parse cs) as [Hshape _].
  rewrite Hp in *. cbn [fst snd] in *. rewrite Hshape, Hopen.
  cbn [feed_all fst snd].
  rewrite (ParserStates.feed_open_block _ JSON_parse _ (errorMessage e) He).
  cbn [fst snd]. rewrite !app_nil_r. reflexivity.
Qed.

(** X21: the route does not read the [network] field that [handleSend]
    posts: for two detected networks it answers alike, and the stores after
    [handleSend] are the same. *)
Theorem detected_network_does_not_reach_the_server
    (JSON_parse : str -> option UnsignedTransaction)
    (input : str) (userId assistantMessageId : string) (now now' : N)
    (network network' : string)
    (fetch fetch' : ChatRequest -> outcome FetchResponse) (s : Store)
    (mcp : McpRequest -> outcome McpResponse) (f f' : FetchResponse) :
  fetch (request input network s) = Resolved f ->
  reads (POST (Resolved (request input network s)) mcp) f ->
  fetch' (request input network' s) = Resolved f' ->
  reads (POST (Resolved (request input network' s)) mcp) f' ->
  POST (Resolved (request input network s)) mcp
    = POST (Resolved (request input network' s)) mcp /\
  handleSend JSON_parse input userId assistantMessageId now now' network fetch s
  = handleSend JSON_parse input userId assistantMessageId now now' network' fetch' s.
Proof.
  intros Hf Hr Hf' Hr'. split; [reflexivity|].
  destruct input as [|x input]; [reflexivity|].
  rewrite POST_request in Hr, Hr' by discriminate. cbn [reads] in Hr, Hr'.
  unfold handleSend. cbn [length Nat.eqb orb].
  destruct (isStreaming s); [reflexivity|].
  cbn [addMessage setStreaming set_messages walletAddress].
  unfold request in Hf, Hf'. rewrite Hf, Hf', Hr, Hr'. reflexivity.
Qed.

(* ------------------------------------------------------------------ *)
(** ** Sample rounds *)

Definition sample_input : str := lit "send 5 USDT to TRecipient".

(** A [fetch] that resolves to a stream with the given body. *)
Definition answers (b : Body) : ChatRequest -> outcome FetchResponse :=
  fun _ => Resolved {| ok := true; body := Some b |}.

Definition sample_reply : list str :=
  [lit "Sending. "; ChatInterface.block ChatInterface.sample_body; lit " Please sign."].

(** An MCP server that cannot be reached, and one whose stream breaks off
    inside a transaction block. *)
Definition mcp_down : McpRequest -> outcome McpResponse :=
  fun _ => Rejected (Error "fetch failed").

Definition mcp_breaks_off : McpRequest -> outcome McpResponse :=
  fun _ => Resolved {| ChatRoute.ok := true; ChatRoute.statusText := "OK";
                       ChatRoute.body :=
                         Some {| chunks := [lit "Building. <<<JSON{ usdt"];
                                 ending := failed (Error "terminated") |} |}.

(** X23: when the request fails, is answered with a status that is not ok,
    or has no body, the reply holds the apology and no transaction, and
    [isStreaming] is false again. *)
Theorem refused_request_shows_the_apology
    (JSON_parse : str -> option UnsignedTransaction)
    (input : str) (userId assistantMessageId : string) (now now' : N)
    (network : string) (fetch : ChatRequest -> outcome FetchResponse) (s : Store) :
  input <> [] -> isStreaming s = false ->
  userId <> assistantMessageId ->
  Forall (fun m => id m <> assistantMessageId) (messages s) ->
  (match fetch (request input network s) with
   | Rejected _ => True
   | Resolved r => ok r = false \/ body r = None
   end) ->
  handleSend JSON_parse input userId assistantMessageId now now' network fetch s
  = Some {| messages :=
              messages s ++
              [ question userId now input;
                reply assistantMessageId now' apology None ];
            isStreaming := false;
            walletAddress := walletAddress s |}.
Proof.
  intros Hin Hst Hid Hfresh Hf. unfold handleSend.
  destruct input as [|x input]; [congruence|].
  rewrite Hst. cbn [length Nat.eqb orb].
  set (pre := messages s ++ [question userId now (x :: input)]).
  assert (Hpre : Forall (fun m => id m <> assistantMessageId) pre).
  { apply Forall_app. split; [exact Hfresh|]. constructor; [exact Hid|constructor]. }
  change (addMessage _ (setStreaming true (addMessage _ s)))
    with {| messages := pre ++ [reply assistantMessageId now' [] None];
            isStreaming := true; walletAddress := walletAddress s |}.
  cbn [walletAddress]. unfold request in Hf. unfold try_block.
  assert (Hend :
    Some (setStreaming false
            (updateMessage assistantMessageId apology
               {| messages := pre ++ [reply assistantMessageId now' [] None];
                  isStreaming := true; walletAddress := walletAddress s |}))
    = Some {| messages := messages s ++
                          [question userId now (x :: input);
                           reply assistantMessageId now' apology None];
              isStreaming := false; walletAddress := walletAddress s |}).
  { rewrite (updateMessage_reply assistantMessageId now' [] apology None pre true
               (walletAddress s) Hpre).
    cbn [setStreaming messages walletAddress]. subst pre. now rewrite <- app_assoc. }
  destruct (fetch _) as [r|e]; [|exact Hend].
  destruct Hf as [Hok|Hbody].
  - rewrite Hok. exact Hend.
  - rewrite Hbody. destruct (negb (ok r)); exact Hend.
Qed.

Lemma refused_request_shows_the_apology_witness :
  handleSend ChatInterface.sample_transaction_parse sample_input "u1" "a1" 1 2 "nile"
    (fun _ => Rejected (Error "Failed to fetch")) useChatStore
  = Some {| messages :=
              messages useChatStore ++
              [ question "u1" 1 sample_input; reply "a1" 2 apology None ];
            isStreaming := false;
            walletAddress := walletAddress useChatStore |}.
Proof.
  apply refused_request_shows_the_apology;
    [discriminate | reflexivity | discriminate | constructor | exact I].
Defined.

Lemma handleSend_shows_the_reply_witness :
  exists items p',
    parse_chunks ChatInterface.sample_transaction_parse reset sample_reply
      = Some (items, p') /\
    handleSend ChatInterface.sample_transaction_parse sample_input "u1" "a1" 1 2 "nile"
      (answers {| chunks := sample_reply; ending := done |}) useChatStore
    = Some {| messages :=
                messages useChatStore ++
                [ question "u1" 1 sample_input;
                  reply "a1" 2 (all_text items)
                    (append_transactions None (all_transactions items)) ];
              isStreaming := false;
              walletAddress := walletAddress useChatStore |}.
Proof.
  apply handleSend_shows_the_reply;
    [discriminate | reflexivity | discriminate | constructor | reflexivity].
Defined.

Lemma broken_stream_keeps_the_cards_witness :
  exists items p',
    parse_chunks ChatInterface.sample_transaction_parse reset sample_reply
      = Some (items, p') /\
    handleSend ChatInterface.sample_transaction_parse sample_input "u1" "a1" 1 2 "nile"
      (answers {| chunks := sample_reply; ending := failed (Error "network error") |})
      useChatStore
    = Some {| messages :=
                messages useChatStore ++
                [ question "u1" 1 sample_input;
                  reply "a1" 2 apology
                    (append_transactions None (all_transactions items)) ];
              isStreaming := false;
              walletAddress := walletAddress useChatStore |}.
Proof.
  apply (broken_stream_keeps_the_cards ChatInterface.sample_transaction_parse
           sample_input "u1" "a1" 1 2 "nile" _ useChatStore sample_reply
           (Error "network error"));
    [discriminate | reflexivity | discriminate | constructor | reflexivity].
Defined.

Lemma mcp_failure_outside_block_is_shown_witness :
  handleSend ChatInterface.sample_transaction_parse sample_input "u1" "a1" 1 2 "nile"
    (answers {| chunks := [lit "Error: fetch failed"]; ending := done |}) useChatStore
  = Some {| messages :=
              messages useChatStore ++
              [ question "u1" 1 sample_input;
                reply "a1" 2 (lit "Error: fetch failed") None ];
            isStreaming := false;
            walletAddress := walletAddress useChatStore |}.
Proof.
  apply (mcp_failure_outside_block_is_shown ChatInterface.sample_transaction_parse
           sample_input "u1" "a1" 1 2 "nile" _ useChatStore mcp_down
           {| ok := true;
              body := Some {| chunks := [lit "Error: fetch failed"]; ending := done |} |}
           [] (Error "fetch failed") [] reset);
    [discriminate | reflexivity | discriminate | constructor
    | reflexivity | reflexivity | reflexivity | reflexivity | reflexivity | reflexivity].
Defined.

Lemma mcp_failure_inside_block_is_hidden_witness :
  handleSend ChatInterface.sample_transaction_parse sample_input "u1" "a1" 1 2 "nile"
    (answers {| chunks := [lit "Building. <<<JSON{ usdt"; lit "Error: terminated"];
                ending := done |}) useChatStore
  = Some {| messages :=
              messages useChatStore ++
              [ question "u1" 1 sample_input;
                reply "a1" 2 (lit "Building. ") None ];
            isStreaming := false;
            walletAddress := walletAddress useChatStore |}.
Proof.
  apply (mcp_failure_inside_block_is_hidden ChatInterface.sample_transaction_parse
           sample_input "u1" "a1" 1 2 "nile" _ useChatStore mcp_breaks_off
           {| ok := true;
              body := Some {| chunks := [lit "Building. <<<JSON{ usdt";
                                         lit "Error: terminated"];
                              ending := done |} |}
           [lit "Building. <<<JSON{ usdt"] (Error "terminated")
           [text (lit "Building. ")] (mk [] true (lit "{ usdt")));
    [discriminate | reflexivity | discriminate | constructor
    | reflexivity | reflexivity | reflexivity | reflexivity | reflexivity | reflexivity].
Defined.

Lemma detected_network_does_not_reach_the_server_witness :
  POST (Resolved (request sample_input "nile" useChatStore)) mcp_down
    = POST (Resolved (request sample_input "mainnet" useChatStore)) mcp_down /\
  handleSend ChatInterface.sample_transaction_parse sample_input "u1" "a1" 1 2 "nile"
    (answers {| chunks := [lit "Error: fetch failed"]; ending := done |}) useChatStore
  = handleSend ChatInterface.sample_transaction_parse sample_input "u1" "a1" 1 2 "mainnet"
      (answers {| chunks := [lit "Error: fetch failed"]; ending := done |}) useChatStore.
Proof.
  apply (detected_network_does_not_reach_the_server
           ChatInterface.sample_transaction_parse sample_input "u1" "a1" 1 2
           "nile" "mainnet" _ _ useChatStore mcp_down
           {| ok := true;
              body := Some {| chunks := [lit "Error: fetch failed"]; ending := done |} |}
           {| ok := true;
              body := Some {| chunks := [lit "Error: fetch failed"]; ending := done |} |});
    reflexivity.
Defined.

End HandleSend.

(* ================================================================== *)
(** * The detected network *)
(* ================================================================== *)

Module NetworkContext.
Import JsString.
Local Open Scope string_scope.

Inductive NetworkType : Type := mainnet | nile | shasta | unknown.

Record NetworkConfig : Type := {
  name : string;
  displayName : string;
  trongridUrl : string;
  tronscanUrl : string;
  tronscanApiUrl : string;
  color : string
}.

Definition NETWORK_CONFIGS (n : NetworkType) : NetworkConfig :=
  match n with
  | mainnet =>
      {| name := "mainnet"; displayName := "Mainnet";
         trongridUrl := "https://api.trongrid.io";
         tronscanUrl := "https://tronscan.org";
         tronscanApiUrl := "https://apilist.tronscanapi.com/api";
         color := "bg-green-500" |}
  | nile =>
      {| name := "nile"; displayName := "Nile 测试网";
         trongridUrl := "https://nile.trongrid.io";
         tronscanUrl := "https://nile.tronscan.org";
         tronscanApiUrl := "https://nileapi.tronscan.org/api";
         color := "bg-orange-500" |}
  | shasta =>
      {| name := "shasta"; displayName := "Shasta 测试网";
         trongridUrl := "https://api.shasta.trongrid.io";
         tronscanUrl := "https://shasta.tronscan.org";
         tronscanApiUrl := "https://api.shasta.tronscan.org/api";
         color := "bg-blue-500" |}
  | unknown =>
      {| name := "unknown"; displayName := "Unknown Network";
         trongridUrl := "https://nile.trongrid.io";
         tronscanUrl := "https://nile.tronscan.org";
         tronscanApiUrl := "https://nileapi.tronscan.org/api";
         color := "bg-gray-500" |}
  end.

(** [s.toLowerCase()] on a string of ASCII code units: the letters [A] to
    [Z] are mapped to [a] to [z]. *)
Definition lower (c : ascii) : ascii :=
  let n := nat_of_ascii c in
  if ((65 <=? n) && (n <=? 90))%nat then ascii_of_nat (n + 32) else c.

Definition toLowerCase (s : str) : str := map lower s.

(** The strings [toLowerCase] is modelled for. *)
Definition is_ascii (s : str) : bool := forallb (fun c => (nat_of_ascii c <? 128)%nat) s.

(** [hay.includes(needle)] *)
Definition includes (needle hay : str) : bool :=
  match indexOf needle hay with Some _ => true | None => false end.

(** What [window.tronWeb?.fullNode?.host] is: missing, a value that is not
    a string, or a string. *)
Inductive Host : Type :=
| missing
| not_a_string
| url (s : str).

(** The chain of [includes] tests on the lower-case URL. *)
Definition classify (fullNodeUrl : str) : NetworkType :=
  if includes (lit "nile") fullNodeUrl then nile
  else if includes (lit "shasta") fullNodeUrl then shasta
  else if includes (lit "api.trongrid.io") fullNodeUrl
          || includes (lit "mainnet") fullNodeUrl then mainnet
  else unknown.

(** [detectNetwork]: the value it gives to [setNetwork]. *)
Definition detectNetwork (host : Host) : NetworkType :=
  match host with
  | missing => nile
  | url [] => nile
  | not_a_string => nile        (* [toLowerCase] is not a function: the [catch] *)
  | url s => classify (toLowerCase s)
  end.

(** The effect of the provider: the network after it ran. *)
Definition network_after (connected : bool) (host : Host) : NetworkType :=
  if negb connected then nile else detectNetwork host.

(* ------------------------------------------------------------------ *)

Lemma includes_app_found (m b c : str) :
  includes m b = true -> includes m (b ++ c)%list = true.
Proof.
  unfold includes. destruct (indexOf m b) as [i|] eqn:E; [|discriminate].
  now rewrite (indexOf_app_found m b c i E).
Qed.

Lemma includes_app_none (m b c : str) :
  indexOf m b = None -> straddles m b c = false -> includes m c = false ->
  includes m (b ++ c)%list = false.
Proof.
  unfold includes. intros Hb Hs Hc.
  rewrite (indexOf_app_none m b c Hb Hs).
  destruct (indexOf m c); [discriminate|reflexivity].
Qed.

Lemma toLowerCase_app (a b : str) :
  toLowerCase (a ++ b)%list = (toLowerCase a ++ toLowerCase b)%list.
Proof. apply map_app. Qed.

(** A URL that begins with a lower-case ASCII [prefix] is classified on
    [prefix] followed by the lower-case rest. *)
Lemma detect_prefixed (prefix : string) (suffix : str) :
  lit prefix <> [] ->
  toLowerCase (lit prefix) = lit prefix ->
  network_after true (url (lit prefix ++ suffix)%list)
  = classify (lit prefix ++ toLowerCase suffix)%list.
Proof.
  intros Hne Hlow. unfold network_after, detectNetwork. cbn [negb].
  destruct (lit prefix ++ suffix)%list as [|x r] eqn:E.
  - destruct (lit prefix); [congruence|discriminate].
  - rewrite <- E, toLowerCase_app, Hlow. reflexivity.
Qed.

(** X24: for mainnet, Nile and Shasta, a wallet whose node URL is the
    TronGrid URL of the network, followed by anything in ASCII that holds
    neither [nile] nor [shasta] in any letter case, is detected as that
    network. *)
Theorem node_url_of_a_network_is_detected (n : NetworkType) (suffix : str) :
  n <> unknown ->
  is_ascii suffix = true ->
  includes (lit "nile") (toLowerCase suffix) = false ->
  includes (lit "shasta") (toLowerCase suffix) = false ->
  network_after true (url (lit (trongridUrl (NETWORK_CONFIGS n)) ++ suffix)%list) = n.
Proof.
  intros Hn _ Hnile Hshasta.
  destruct n; try congruence; cbn [NETWORK_CONFIGS trongridUrl];
    (rewrite detect_prefixed; [|discriminate|reflexivity]); unfold classify.
  - rewrite (includes_app_none (lit "nile") (lit "https://api.trongrid.io")
               (toLowerCase suffix) eq_refl eq_refl Hnile).
    rewrite (includes_app_none (lit "shasta") (lit "https://api.trongrid.io")
               (toLowerCase suffix) eq_refl eq_refl Hshasta).
    rewrite (includes_app_found (lit "api.trongrid.io") (lit "https://api.trongrid.io")
               (toLowerCase suffix) eq_refl).
    reflexivity.
  - rewrite (includes_app_found (lit "nile") (lit "https://nile.trongrid.io")
               (toLowerCase suffix) eq_refl).
    reflexivity.
  - rewrite (includes_app_none (lit "nile") (lit "https://api.shasta.trongrid.io")
               (toLowerCase suffix) eq_refl eq_refl Hnile).
    rewrite (includes_app_found (lit "shasta") (lit "https://api.shasta.trongrid.io")
               (toLowerCase suffix) eq_refl).
    reflexivity.
Qed.

Lemma node_url_of_a_network_is_detected_witness :
  network_after true (url (lit "https://api.shasta.trongrid.io:8090/wallet")) = shasta.
Proof.
  exact (node_url_of_a_network_is_detected shasta (lit ":8090/wallet")
           ltac:(discriminate) eq_refl eq_refl eq_refl).
Defined.

End NetworkContext.

(* ================================================================== *)
(** * Addresses in short *)
(* ================================================================== *)

Module ShortAddress.
Import JsString.

(** [s.slice(-n)] and, for the start the card computes, [s.substring(s.length - n)]:
    the last [n] code units, and all of [s] when it has fewer. *)
Definition last_units (n : nat) (s : str) : str := skipn (length s - n) s.

(** [formatAddress] of [WalletButton]:
    [`${addr.slice(0, 6)}...${addr.slice(-4)}`] *)
Definition formatAddress (addr : str) : str :=
  firstn 6 addr ++ lit "..." ++ last_units 4 addr.

(** The [To] row of [TransactionCard], which is there when [to_address] is
    a non-empty string:
    [`${to.substring(0, 10)}...${to.substring(to.length - 8)}`] *)
Definition to_row (to_address : option str) : option str :=
  match to_address with
  | None | Some [] => None
  | Some addr =>
      Some (substring_to 10 addr ++ lit "..." ++ substring_from (length addr - 8) addr)
  end.

Lemma firstn_exact (pre rest : str) (n : nat) :
  length pre = n -> firstn n (pre ++ rest) = pre.
Proof.
  intros <-. rewrite firstn_app, Nat.sub_diag, firstn_all. cbn. apply app_nil_r.
Qed.

Lemma last_units_exact (rest suf : str) (n : nat) :
  length suf = n -> last_units n (rest ++ suf) = suf.
Proof.
  intros <-. unfold last_units. rewrite length_app, Nat.add_sub.
  rewrite skipn_app, Nat.sub_diag, skipn_all. reflexivity.
Qed.

Lemma last_units_short (s : str) (n : nat) :
  length s <= n -> last_units n s = s.
Proof.
  intros H. unfold last_units. replace (length s - n) with 0 by lia. reflexivity.
Qed.

Lemma to_row_some (addr : str) :
  addr <> [] ->
  to_row (Some addr) = Some (firstn 10 addr ++ lit "..." ++ last_units 8 addr).
Proof. destruct addr; [congruence|reflexivity]. Qed.

(** X25: the short form of an address in the wallet button is its first six
    and last four code units, the one in the [To] row its first ten and last
    eight, whatever lies between; an address of at most four (eight) code
    units is printed twice, around the dots. *)
Theorem short_forms_hide_the_middle (pre suf pre' suf' mid : str) :
  length pre = 6 -> length suf = 4 ->
  length pre' = 10 -> length suf' = 8 ->
  formatAddress (pre ++ mid ++ suf) = pre ++ lit "..." ++ suf /\
  to_row (Some (pre' ++ mid ++ suf')) = Some (pre' ++ lit "..." ++ suf') /\
  (forall addr : str, length addr <= 4 -> formatAddress addr = addr ++ lit "..." ++ addr) /\
  (forall addr : str, addr <> [] -> length addr <= 8 ->
                to_row (Some addr) = Some (addr ++ lit "..." ++ addr)).
Proof.
  intros H1 H2 H3 H4. repeat split.
  - unfold formatAddress.
    rewrite (firstn_exact pre _ 6 H1), (app_assoc pre mid suf),
      (last_units_exact _ suf 4 H2).
    reflexivity.
  - rewrite to_row_some by (destruct pre'; [discriminate H3|discriminate]).
    rewrite (firstn_exact pre' _ 10 H3), (app_assoc pre' mid suf'),
      (last_units_exact _ suf' 8 H4).
    reflexivity.
  - intros addr H. unfold formatAddress.
    rewrite firstn_all2 by lia. now rewrite last_units_short.
  - intros a Hne H. rewrite (to_row_some a Hne).
    rewrite firstn_all2 by lia. now rewrite last_units_short.
Qed.

Lemma short_forms_hide_the_middle_witness :
  formatAddress (lit "TXYZab" ++ lit "cdefghijklmnopqrstuvwxyz" ++ lit "1234")
    = lit "TXYZab...1234" /\
  to_row (Some (lit "TXYZabcdef" ++ lit "cdefghijklmnopqrstuvwxyz" ++ lit "12345678"))
    = Some (lit "TXYZabcdef...12345678") /\
  (forall addr : str, length addr <= 4 -> formatAddress addr = addr ++ lit "..." ++ addr) /\
  (forall addr : str, addr <> [] -> length addr <= 8 ->
                to_row (Some addr) = Some (addr ++ lit "..." ++ addr)).
Proof.
  exact (short_forms_hide_the_middle (lit "TXYZab") (lit "1234") (lit "TXYZabcdef")
           (lit "12345678") (lit "cdefghijklmnopqrstuvwxyz")
           eq_refl eq_refl eq_refl eq_refl).
Defined.

End ShortAddress.

(* ================================================================== *)
(** * The result of a simulation and the card *)
(* ================================================================== *)

Module SimulationGate.




End SimulationGate.

Module SimulationAdvice.
Import JsString TransactionCard.
Local Open Scope string_scope.




(* ------------------------------------------------------------------ *)







End SimulationAdvice.
